(** * MaskFaceRecog: the evaluation script [eval.py]

    A shallow embedding of [src/eval.py] and the properties of its
    specification.

    Numbers.  The script computes on IEEE binary32 tensors, with the rounding
    of the torch kernels of the device it runs on.  This development
    idealises them as real numbers ([R]): every statement about a score or a
    pixel below is a statement about the exact arithmetic of the formula the
    code evaluates, not about its rounding.

    Effects.  Everything the script does to the outside (logging, files, the
    data loader, the network, the metrics module) goes through functions that
    are not in [eval.py].  They are parameters of the development (record
    [externals]); the script's own control flow runs in a small state and
    exception monad that records every such call in a trace. *)

From Stdlib Require Import String Ascii ZArith Lia Bool Reals Lra List Sorted.
Import ListNotations.

Set Implicit Arguments.

(** ** Exceptions and results *)

(** The exceptions the modelled code can raise itself are [IndexError]
    (indexing a sequence out of range) and [RuntimeError] (torch's shape
    checks); [LibraryError] stands for whatever an external function raises. *)
Inductive exn : Type :=
| IndexError
| RuntimeError
| LibraryError (name : string).

Inductive outcome (A : Type) : Type :=
| Ok (a : A)
| Raise (e : exn).
Arguments Ok {A} a.
Arguments Raise {A} e.

Definition obind {A B} (m : outcome A) (k : A -> outcome B) : outcome B :=
  match m with
  | Ok a => k a
  | Raise e => Raise e
  end.

Declare Scope outcome_scope.
Delimit Scope outcome_scope with outcome.
Notation "x <- m ;; k" := (obind m (fun x => k))
  (at level 61, m at next level, right associativity) : outcome_scope.

(** [s[i]] on a Python sequence. *)
Definition getitem {A} (s : list A) (i : nat) : outcome A :=
  match nth_error s i with
  | Some a => Ok a
  | None => Raise IndexError
  end.

(** ** Tensors *)

Open Scope R_scope.

(** An image batch is only ever touched elementwise: a shape and the flat
    array of its values. *)
Record tensor : Type := mkTensor {
  shape : list nat;
  data : list R
}.

Definition tensor_map (f : R -> R) (t : tensor) : tensor :=
  {| shape := shape t; data := map f (data t) |}.

(** [t / c] and [t - c] with a Python scalar [c]. *)
Definition tensor_div (t : tensor) (c : R) : tensor := tensor_map (fun v => v / c) t.
Definition tensor_sub (t : tensor) (c : R) : tensor := tensor_map (fun v => v - c) t.

(** line 38: [img = (((data / 255) - 0.5) / 0.5)] *)
Definition normalize_pixels (data : tensor) : tensor :=
  tensor_div (tensor_sub (tensor_div data 255) 0.5) 0.5.

(** An embedding batch is a 2-D tensor, one row per example. *)
Definition vector : Type := list R.
Definition matrix : Type := list vector.

Definition sum_list (l : list R) : R := fold_right Rplus 0 l.

Definition l2_norm (v : vector) : R :=
  sqrt (sum_list (map (fun x => x * x) v)).

(** Euclidean distance of two rows of the same width. *)
Definition l2_dist (a b : vector) : R :=
  sqrt (sum_list (map (fun p => (fst p - snd p) * (fst p - snd p)) (combine a b))).

(** [t.reshape(1, -1)] of a 1-D tensor: a matrix of one row.  With one
    dimension given as 1 the [-1] dimension is the number of elements, so a row
    without elements becomes a tensor of shape (1, 0) and nothing is raised. *)
Definition reshape_1 (v : vector) : outcome matrix := Ok [v].

Definition ncols (m : matrix) : nat :=
  match m with
  | [] => O
  | r :: _ => length r
  end.

(** [torch.cdist(x1, x2)] with the default [p = 2]: the matrix of the
    distances between every row of [x1] and every row of [x2]; the two must
    have the same number of columns. *)
Definition cdist (x1 x2 : matrix) : outcome matrix :=
  if Nat.eqb (ncols x1) (ncols x2)
  then Ok (map (fun a => map (fun b => l2_dist a b) x2) x1)
  else Raise RuntimeError.

(** [torch.nn.functional.normalize(x)] with its defaults [p = 2], [dim = 1],
    [eps = 1e-12]: every row is divided by [max(norm, eps)].  This is the
    formula in exact arithmetic: in binary32 the norm of a result is 1 only up
    to rounding, and a row whose norm overflows is mapped to the zero row. *)
Definition normalize_eps : R := 1e-12.

Definition normalize_row (v : vector) : vector :=
  map (fun x => x / Rmax (l2_norm v) normalize_eps) v.

Definition normalize (x : matrix) : matrix := map normalize_row x.

(** ** [embedding_dist] (lines 46-63) *)

Section EmbeddingDist.
Local Open Scope outcome_scope.

(** One iteration of the loop at lines 58-61.  [.detach().cpu().numpy()] does
    not change the values. *)
Definition pair_similarity (embed1 embed2 : matrix) (i : nat) : outcome R :=
  r1 <- getitem embed1 i ;;
  x1 <- reshape_1 r1 ;;
  r2 <- getitem embed2 i ;;
  x2 <- reshape_1 r2 ;;
  d <- cdist x1 x2 ;;
  d0 <- getitem d 0 ;;
  d00 <- getitem d0 0 ;;
  Ok (1 - d00 / 2).

(** [for i in range(embed1.shape[0]): ... embeds.append(sim)] *)
Fixpoint embedding_dist_loop (embed1 embed2 : matrix) (range : list nat)
    (embeds : list R) : outcome (list R) :=
  match range with
  | [] => Ok embeds
  | i :: range' =>
      sim <- pair_similarity embed1 embed2 i ;;
      embedding_dist_loop embed1 embed2 range' (embeds ++ [sim])
  end.

Definition embedding_dist (embed1 embed2 : matrix) : outcome (list R) :=
  embedding_dist_loop embed1 embed2 (seq 0 (length embed1)) [].

End EmbeddingDist.

(** ** Paths and command-line arguments *)

Definition starts_with_sep (s : string) : bool :=
  match s with
  | String c _ => Ascii.eqb c "/"
  | EmptyString => false
  end.

Fixpoint ends_with_sep (s : string) : bool :=
  match s with
  | EmptyString => false
  | String c EmptyString => Ascii.eqb c "/"
  | String _ s' => ends_with_sep s'
  end.

(** [os.path.join(a, b)] on a POSIX system. *)
Definition path_join (a b : string) : string :=
  if starts_with_sep b then b
  else if String.eqb a "" || ends_with_sep a then a ++ b
  else a ++ "/" ++ b.

(** The result of [parser.parse_args()] (lines 18-25). *)
Record arguments : Type := mkArgs {
  data_dir : string;
  model_dir : string;
  pretrained : string
}.

(** ** The world outside the script *)

(** The types the script handles without looking inside. *)
Record domain : Type := mkDomain {
  OS : Type;        (* file system, CUDA runtime, logging handlers, ... *)
  RngState : Type;  (* state of a torch random number generator *)
  NetState : Type;  (* parameters and buffers of a FocusFace object *)
  Target : Type;    (* identity labels of a batch *)
  Loader : Type;    (* a torch DataLoader *)
  Metrics : Type    (* the dict returned by evaluate_metrics *)
}.

Inductive device : Type := Cpu | Cuda.

(** [x.to(device)] moves [x]; its value is the same. *)
Definition to_device {A} (x : A) (d : device) : A := x.

(** A FocusFace object is a reference into the store of the world. *)
Definition handle : Type := nat.

Section World.
Variable D : domain.

Record env : Type := mkEnv {
  rng : RngState D;
  cuda_rng : RngState D;
  os : OS D
}.

(** One of the two dicts of a batch, with its keys ['target'], ['masked'] and
    ['unmasked']. *)
Record sample : Type := mkSample {
  target : list (Target D);
  masked : tensor;
  unmasked : tensor
}.

Definition batch : Type := (sample * sample)%type.

(** The calls that leave [eval.py], with their arguments.  [LibraryOp] stands
    for an operation of Python or torch that the script evaluates in place
    (indexing, [torch.cdist]); it enters the trace only when it
    raises. *)
Inductive call : Type :=
| LibraryOp
| TorchManualSeed (seed : Z)
| CudaIsAvailable
| CudaManualSeed (seed : Z)
| SetLogger (log_path : string)
| LoggingInfo (msg : string)
| CreateDataloader (dir : string) (batch_size workers : Z)
| FocusFace (identities : Z)
| LoadCheckpoint (checkpoint : string) (net : handle)
| NextBatch (loader : Loader D) (i : nat)
| Forward (net : handle) (img : tensor) (tgt : Target D) (inference grad : bool)
| EvaluateMetrics (dir : string) (gscores iscores : list R)
    (clf_name : string) (print_results : bool)
| SaveDictToJson (d : Metrics D) (json_path : string).

(** A call and the exception it raised, if any. *)
Definition event : Type := (call * option exn)%type.

(** The functions of torch and of the modules [utils], [dataloader], [model]
    and [metrics], none of which is in [eval.py].  Each one may change the
    environment and may raise; [load_checkpoint] and [forward] also receive
    the network they are called on and may change it.  A loader yields
    [num_batches] batches, the [i]-th by [next_batch]; the result of
    [forward] is the tuple the network returns. *)
Record externals : Type := mkExternals {
  seeded : Z -> RngState D;
  cuda_is_available : OS D -> bool;
  set_logger : string -> env -> outcome unit * env;
  logging_info : string -> env -> outcome unit * env;
  create_dataloader : string -> Z -> Z -> env -> outcome (Loader D * Loader D) * env;
  new_FocusFace : Z -> env -> outcome (NetState D) * env;
  load_checkpoint : string -> NetState D -> env -> outcome unit * (NetState D * env);
  num_batches : Loader D -> nat;
  next_batch : Loader D -> nat -> env -> outcome batch * env;
  forward : NetState D -> tensor -> Target D -> bool -> bool -> env ->
            outcome (list matrix) * (NetState D * env);
  evaluate_metrics : string -> list R -> list R -> string -> bool -> env ->
                     outcome (Metrics D) * env;
  save_dict_to_json : Metrics D -> string -> env -> outcome unit * env
}.

Record world : Type := mkWorld {
  w_env : env;
  grad_enabled : bool;            (* torch's global gradient mode *)
  nets : handle -> NetState D;    (* the state of every FocusFace object *)
  next_handle : handle;           (* the next object to allocate *)
  trace : list event
}.

(** ** The monad of the script: state and exceptions *)

Definition M (A : Type) : Type := world -> outcome A * world.

Definition ret {A} (a : A) : M A := fun w => (Ok a, w).

Definition bind {A B} (m : M A) (k : A -> M B) : M B :=
  fun w =>
    match m w with
    | (Ok a, w') => k a w'
    | (Raise e, w') => (Raise e, w')
    end.

Definition status {A} (o : outcome A) : option exn :=
  match o with
  | Ok _ => None
  | Raise e => Some e
  end.

Definition log_call {A} (c : call) (r : outcome A) (w : world) : list event :=
  trace w ++ [(c, status r)].

(** A computation of the script without effects, which may raise. *)
Definition lift {A} (o : outcome A) : M A :=
  fun w =>
    match o with
    | Ok a => (Ok a, w)
    | Raise e =>
        (Raise e,
         {| w_env := w_env w; grad_enabled := grad_enabled w; nets := nets w;
            next_handle := next_handle w; trace := log_call LibraryOp o w |})
    end.

(** A call of an external function on the environment. *)
Definition call_env {A} (c : call) (f : env -> outcome A * env) : M A :=
  fun w =>
    let (r, e') := f (w_env w) in
    (r, {| w_env := e'; grad_enabled := grad_enabled w; nets := nets w;
           next_handle := next_handle w; trace := log_call c r w |}).

Definition update_net (h : handle) (n : NetState D) (s : handle -> NetState D)
    : handle -> NetState D :=
  fun h' => if Nat.eqb h' h then n else s h'.

(** A call of an external function on the environment and on the network [h]. *)
Definition call_net {A} (c : call) (h : handle)
    (f : NetState D -> env -> outcome A * (NetState D * env)) : M A :=
  fun w =>
    let '(r, (n', e')) := f (nets w h) (w_env w) in
    (r, {| w_env := e'; grad_enabled := grad_enabled w;
           nets := update_net h n' (nets w);
           next_handle := next_handle w; trace := log_call c r w |}).

Definition set_grad (g : bool) (w : world) : world :=
  {| w_env := w_env w; grad_enabled := g; nets := nets w;
     next_handle := next_handle w; trace := trace w |}.

(** [with torch.no_grad(): body]: the gradient mode is off inside and restored
    on the way out, also when [body] raises. *)
Definition with_no_grad {A} (body : M A) : M A :=
  fun w =>
    let (r, w') := body (set_grad false w) in
    (r, set_grad (grad_enabled w) w').

End World.

Arguments LibraryOp {D}.
Arguments TorchManualSeed {D} seed.
Arguments CudaIsAvailable {D}.
Arguments CudaManualSeed {D} seed.
Arguments SetLogger {D} log_path.
Arguments LoggingInfo {D} msg.
Arguments CreateDataloader {D} dir batch_size workers.
Arguments FocusFace {D} identities.
Arguments LoadCheckpoint {D} checkpoint net.
Arguments NextBatch {D} loader i.
Arguments Forward {D} net img tgt inference grad.
Arguments EvaluateMetrics {D} dir gscores iscores clf_name print_results.
Arguments SaveDictToJson {D} d json_path.
Arguments update_net {D} h n s _.
Arguments ret {D A} a _.
Arguments lift {D A} o _.

Declare Scope script_scope.
Delimit Scope script_scope with script.
Notation "x <- m ;; k" := (bind m (fun x => k))
  (at level 61, m at next level, right associativity) : script_scope.
Notation "' p <- m ;; k" := (bind m (fun x => let 'p := x in k))
  (at level 61, p pattern, m at next level, right associativity) : script_scope.

(** ** The script *)

Section Script.
Variable D : domain.
Variable X : externals D.
Local Open Scope script_scope.
Local Open Scope string_scope.

(** [torch.manual_seed(seed)] seeds the generator of every device. *)
Definition torch_manual_seed (seed : Z) : M D unit :=
  call_env (TorchManualSeed seed)
    (fun e => (Ok tt, {| rng := seeded X seed; cuda_rng := seeded X seed; os := os e |})).

Definition torch_cuda_is_available : M D bool :=
  call_env CudaIsAvailable (fun e => (Ok (cuda_is_available X (os e)), e)).

Definition torch_cuda_manual_seed (seed : Z) : M D unit :=
  call_env (CudaManualSeed seed)
    (fun e => (Ok tt, {| rng := rng e; cuda_rng := seeded X seed; os := os e |})).

Definition utils_set_logger (log_path : string) : M D unit :=
  call_env (SetLogger log_path) (set_logger X log_path).

Definition logging_info_ (msg : string) : M D unit :=
  call_env (LoggingInfo msg) (logging_info X msg).

Definition dataloader_create_dataloader (dir : string) (batch_size workers : Z)
    : M D (Loader D * Loader D) :=
  call_env (CreateDataloader dir batch_size workers)
    (create_dataloader X dir batch_size workers).

(** [model.FocusFace(identities)] allocates a new object. *)
Definition model_FocusFace (identities : Z) : M D handle :=
  fun w =>
    let (r, e') := new_FocusFace X identities (w_env w) in
    let tr := log_call (FocusFace identities) r w in
    match r with
    | Ok n =>
        (Ok (next_handle w),
         {| w_env := e'; grad_enabled := grad_enabled w;
            nets := update_net (next_handle w) n (nets w);
            next_handle := S (next_handle w); trace := tr |})
    | Raise e =>
        (Raise e,
         {| w_env := e'; grad_enabled := grad_enabled w; nets := nets w;
            next_handle := next_handle w; trace := tr |})
    end.

Definition utils_load_checkpoint (checkpoint : string) (net : handle) : M D unit :=
  call_net (LoadCheckpoint checkpoint net) net (load_checkpoint X checkpoint).

(** The [i]-th step of the iteration over [enumerate(tqdm(data_loader), 0)];
    [tqdm] only draws a progress bar and the index of [enumerate] is not
    used. *)
Definition loader_next (loader : Loader D) (i : nat) : M D (batch D) :=
  call_env (NextBatch loader i) (next_batch X loader i).

(** [net(img, target, inference=...)], under the current gradient mode. *)
Definition net_call (net : handle) (img : tensor) (tgt : Target D) (inference : bool)
    : M D (list matrix) :=
  fun w =>
    call_net (Forward net img tgt inference (grad_enabled w)) net
      (fun n => forward X n img tgt inference (grad_enabled w)) w.

Definition metrics_evaluate_metrics (dir : string) (gscores iscores : list R)
    (clf_name : string) (print_results : bool) : M D (Metrics D) :=
  call_env (EvaluateMetrics dir gscores iscores clf_name print_results)
    (evaluate_metrics X dir gscores iscores clf_name print_results).

Definition utils_save_dict_to_json (d : Metrics D) (json_path : string) : M D unit :=
  call_env (SaveDictToJson d json_path) (save_dict_to_json X d json_path).

(** *** [generate_embeddings] (lines 28-43) *)
Definition generate_embeddings (net : handle) (tgt : Target D) (data : tensor)
    : M D matrix :=
  let img := normalize_pixels data in
  out <- net_call net img tgt true ;;
  embed <- lift (getitem out 1) ;;
  ret embed.

(** *** [evaluate] (lines 66-105) *)

(** The body of the loop, lines 84-100: the scores of one batch. *)
Definition batch_scores (net : handle) (dev : device) (b : batch D)
    : M D (list R * list R) :=
  let (gen, imp) := b in
  gen_target <- lift (getitem (target gen) 0) ;;
  let gen_target := to_device gen_target dev in
  let gen_masked := to_device (masked gen) dev in
  let gen_unmasked := to_device (unmasked gen) dev in
  imp_target <- lift (getitem (target imp) 1) ;;
  let imp_target := to_device imp_target dev in
  let imp_masked := to_device (masked imp) dev in
  let imp_unmasked := to_device (unmasked imp) dev in
  gen_emb1 <- generate_embeddings net gen_target gen_masked ;;
  gen_emb2 <- generate_embeddings net gen_target gen_unmasked ;;
  let gen_emb1 := normalize gen_emb1 in
  let gen_emb2 := normalize gen_emb2 in
  imp_emb1 <- generate_embeddings net imp_target imp_masked ;;
  imp_emb2 <- generate_embeddings net imp_target imp_unmasked ;;
  let imp_emb1 := normalize imp_emb1 in
  let imp_emb2 := normalize imp_emb2 in
  g_dist <- lift (embedding_dist gen_emb1 gen_emb2) ;;
  i_dist <- lift (embedding_dist imp_emb1 imp_emb2) ;;
  ret (g_dist, i_dist).

(** The loop of lines 82-103 over the batches still to come, with the two
    lists it extends. *)
Fixpoint evaluate_loop (net : handle) (loader : Loader D) (dev : device)
    (range : list nat) (gscores iscores : list R) : M D (list R * list R) :=
  match range with
  | [] => ret (gscores, iscores)
  | i :: range' =>
      b <- loader_next loader i ;;
      ' (g_dist, i_dist) <- batch_scores net dev b ;;
      evaluate_loop net loader dev range' (gscores ++ g_dist) (iscores ++ i_dist)
  end.

(** Lines 79-103: the [with torch.no_grad()] block. *)
Definition evaluate_scores (net : handle) (loader : Loader D) (dev : device)
    : M D (list R * list R) :=
  with_no_grad
    (evaluate_loop net loader dev (seq 0 (num_batches X loader)) [] []).

Definition evaluate (dir : string) (net : handle) (loader : Loader D) (dev : device)
    : M D (Metrics D) :=
  ' (gscores, iscores) <- evaluate_scores net loader dev ;;
  metrics_evaluate_metrics dir gscores iscores "A" true.

(** *** The main procedure (lines 108-141) *)

Definition log_path (args : arguments) : string :=
  path_join (model_dir args) "test.log".

Definition pretrain_path (args : arguments) : string :=
  path_join (model_dir args) (pretrained args ++ ".pth.tar").

Definition save_path (args : arguments) : string :=
  path_join (model_dir args) ("test_metrics_" ++ pretrained args ++ ".json").

Definition main (args : arguments) : M D unit :=
  _ <- torch_manual_seed 230 ;;
  cuda <- torch_cuda_is_available ;;
  dev <- (if cuda
          then _ <- torch_cuda_manual_seed 230 ;; ret Cuda
          else ret Cpu) ;;
  _ <- utils_set_logger (log_path args) ;;
  let batch_size := 64%Z in
  let workers := 2%Z in
  _ <- logging_info_ "Loading the datasets ..." ;;
  ' (_, test_loader) <- dataloader_create_dataloader (data_dir args) batch_size workers ;;
  _ <- logging_info_ "- Done." ;;
  let identities := 601%Z in
  net <- model_FocusFace identities ;;
  let net := to_device net dev in
  _ <- logging_info_ ("Loading parameters from " ++ pretrain_path args) ;;
  _ <- utils_load_checkpoint (pretrain_path args) net ;;
  _ <- logging_info_ "Start evaluation ..." ;;
  test_metrics <- evaluate (model_dir args) net test_loader dev ;;
  utils_save_dict_to_json test_metrics (save_path args).

End Script.

(** ** Vocabulary of the specification *)

(** The score of the [i]-th pair of rows: one minus half their Euclidean
    distance. *)
Definition row_similarity (embed1 embed2 : matrix) (i : nat) : R :=
  1 - l2_dist (nth i embed1 []) (nth i embed2 []) / 2.

Definition width (k : nat) (v : vector) : Prop := length v = k.

Definition unit_norm (v : vector) : Prop := l2_norm v = 1.

(** An embedding batch: a 2-D tensor of [n] embedding vectors, each a float
    array of the fixed length [k], which is positive. *)
Definition embedding_batch (n k : nat) (x : matrix) : Prop :=
  length x = n /\ (0 < k)%nat /\ Forall (width k) x.

Section Vocabulary.
Variable D : domain.
Variable X : externals D.
Local Open Scope script_scope.

(** [m], run in any world, adds to the trace a list of events that, together
    with the outcome, satisfies [Q]. *)
Definition run_spec {A} (m : M D A) (Q : outcome A -> list (event D) -> Prop) : Prop :=
  forall w, exists evs,
    trace (snd (m w)) = trace w ++ evs /\ Q (fst (m w)) evs.

(** The score lists of the batches of [range], batch by batch. *)
Fixpoint per_batch_scores (net : handle) (loader : Loader D) (dev : device)
    (range : list nat) : M D (list (list R * list R)) :=
  match range with
  | [] => ret []
  | i :: range' =>
      b <- loader_next X loader i ;;
      s <- batch_scores X net dev b ;;
      rest <- per_batch_scores net loader dev range' ;;
      ret (s :: rest)
  end.

Definition concat_scores (l : list (list R * list R)) : list R * list R :=
  (concat (map fst l), concat (map snd l)).

(** A network whose forward pass, in inference mode and with the gradient
    mode off, leaves it as it found it: the pass updates no buffer of the
    network, such as the running statistics of a batch-normalisation layer.
    [model.FocusFace] is not in [eval.py], and [eval.py] does not call
    [net.eval()]: whether its network is of this kind cannot be read off the
    script. *)
Definition stateless_forward : Prop :=
  forall n img tgt e, fst (snd (forward X n img tgt true false e)) = n.

(** Two worlds that differ at most in the state of the random number
    generators. *)
Definition same_up_to_rng (w1 w2 : world D) : Prop :=
  os (w_env w1) = os (w_env w2) /\
  grad_enabled w1 = grad_enabled w2 /\
  nets w1 = nets w2 /\
  next_handle w1 = next_handle w2 /\
  trace w1 = trace w2.

(** The score lists handed to [evaluate_metrics] in a trace. *)
Fixpoint scores_of (tr : list (event D)) : list (list R * list R) :=
  match tr with
  | [] => []
  | (EvaluateMetrics _ g i _ _, _) :: tr' => (g, i) :: scores_of tr'
  | _ :: tr' => scores_of tr'
  end.

(** The steps of the procedure, in the order of the specification. *)
Inductive step : Type :=
| LoadDataset
| LoadModel
| BatchLoop
| ComputeMetrics
| Serialize.

Definition step_of (ev : event D) : option step :=
  match fst ev with
  | CreateDataloader _ _ _ => Some LoadDataset
  | FocusFace _ | LoadCheckpoint _ _ => Some LoadModel
  | NextBatch _ _ | Forward _ _ _ _ _ => Some BatchLoop
  | EvaluateMetrics _ _ _ _ _ => Some ComputeMetrics
  | SaveDictToJson _ _ => Some Serialize
  | _ => None
  end.

Fixpoint steps (tr : list (event D)) : list step :=
  match tr with
  | [] => []
  | ev :: tr' =>
      match step_of ev with
      | Some s => s :: steps tr'
      | None => steps tr'
      end
  end.

Definition rank (s : step) : nat :=
  match s with
  | LoadDataset => 0
  | LoadModel => 1
  | BatchLoop => 2
  | ComputeMetrics => 3
  | Serialize => 4
  end.

(** [s] comes no later than [s'] in the procedure. *)
Definition step_le (s s' : step) : Prop := (rank s <= rank s')%nat.

Definition raised (ev : event D) : option exn := snd ev.

(** The steps of [l] come in the order of the procedure and lie between the
    ranks [lo] and [hi]. *)
Definition phase_ok (lo hi : nat) (l : list step) : Prop :=
  StronglySorted step_le l /\ Forall (fun s => (lo <= rank s <= hi)%nat) l.

(** A call that raised is the last call of the run, and its exception is the
    outcome of the run. *)
Definition propagated {A} (r : outcome A) (evs : list (event D)) : Prop :=
  forall pre ev post e,
    evs = pre ++ ev :: post -> raised ev = Some e -> post = [] /\ r = Raise e.

Definition propagates {A} (m : M D A) : Prop := run_spec m propagated.

(** Every event of every run of [m] satisfies [ok]. *)
Definition all_events {A} (ok : event D -> Prop) (m : M D A) : Prop :=
  run_spec m (fun _ evs => Forall ok evs).

(** The steps of every run of [m] are in order, between [lo] and [hi]. *)
Definition in_phase {A} (lo hi : nat) (m : M D A) : Prop :=
  run_spec m (fun _ evs => phase_ok lo hi (steps evs)).

(** No event of [evs] is a call that raised. *)
Definition quiet (evs : list (event D)) : Prop :=
  Forall (fun ev => raised ev = None) evs.

(** [evs] is a run of calls that returned, possibly ended by one call that
    raised the exception of the outcome [r]. *)
Definition clean {A} (r : outcome A) (evs : list (event D)) : Prop :=
  quiet evs \/
  exists pre c e, evs = pre ++ [(c, Some e)] /\ quiet pre /\ r = Raise e.

(** The calls [evaluate] makes. *)
Inductive evaluate_call (dir : string) (net : handle) (loader : Loader D)
    : call D -> Prop :=
| ec_next_batch i :
    In i (seq 0 (num_batches X loader)) ->
    evaluate_call dir net loader (NextBatch loader i)
| ec_library_op : evaluate_call dir net loader LibraryOp
| ec_forward img tgt g :
    evaluate_call dir net loader (Forward net img tgt true g)
| ec_evaluate_metrics gscores iscores :
    evaluate_call dir net loader (EvaluateMetrics dir gscores iscores "A" true).

(** The calls the main procedure makes. *)
Inductive main_call (args : arguments) : call D -> Prop :=
| mc_manual_seed : main_call args (TorchManualSeed 230)
| mc_cuda_is_available : main_call args CudaIsAvailable
| mc_cuda_manual_seed : main_call args (CudaManualSeed 230)
| mc_set_logger : main_call args (SetLogger (log_path args))
| mc_info_datasets : main_call args (LoggingInfo "Loading the datasets ...")
| mc_create_dataloader :
    main_call args (CreateDataloader (data_dir args) 64 2)
| mc_info_done : main_call args (LoggingInfo "- Done.")
| mc_FocusFace : main_call args (FocusFace 601)
| mc_info_parameters :
    main_call args (LoggingInfo ("Loading parameters from " ++ pretrain_path args))
| mc_load_checkpoint net :
    main_call args (LoadCheckpoint (pretrain_path args) net)
| mc_info_evaluation : main_call args (LoggingInfo "Start evaluation ...")
| mc_evaluate net loader c :
    evaluate_call (model_dir args) net loader c -> main_call args c
| mc_save_dict_to_json d :
    main_call args (SaveDictToJson d (save_path args)).

(** The paths of the main procedure, at the calls that receive one. *)
Definition path_ok (args : arguments) (ev : event D) : Prop :=
  match fst ev with
  | SetLogger p => p = log_path args
  | LoadCheckpoint p _ => p = pretrain_path args
  | SaveDictToJson _ p => p = save_path args
  | _ => True
  end.

(** A forward pass made with the gradient mode off. *)
Definition forward_no_grad (ev : event D) : Prop :=
  match fst ev with
  | Forward _ _ _ _ g => g = false
  | _ => True
  end.

(** Two worlds in which the network [net] has the same state and the
    environment (files, loaders, random number generators) is the same. *)
Definition same_inputs (net : handle) (w1 w2 : world D) : Prop :=
  w_env w1 = w_env w2 /\ nets w1 net = nets w2 net.

(** Run with the gradient mode off, [m] leaves it off, leaves every network
    as it was and makes its forward passes with the gradient mode off. *)
Definition keeps_networks {A} (m : M D A) : Prop :=
  forall w,
    grad_enabled w = false ->
    grad_enabled (snd (m w)) = false /\
    (forall h, nets (snd (m w)) h = nets w h) /\
    exists evs, trace (snd (m w)) = trace w ++ evs /\ Forall forward_no_grad evs.

(** Two runs of [m] on the same inputs, under the same gradient mode, have
    the same outcome, make the same calls and end on the same inputs. *)
Definition same_runs {A} (net : handle) (m : M D A) : Prop :=
  forall w1 w2,
    same_inputs net w1 w2 ->
    grad_enabled w1 = grad_enabled w2 ->
    fst (m w1) = fst (m w2) /\
    same_inputs net (snd (m w1)) (snd (m w2)) /\
    grad_enabled (snd (m w1)) = grad_enabled (snd (m w2)) /\
    exists evs,
      trace (snd (m w1)) = trace w1 ++ evs /\
      trace (snd (m w2)) = trace w2 ++ evs.

End Vocabulary.

Arguments forward_no_grad {D} ev.
Arguments raised {D} ev.
Arguments step_of {D} ev.

(** ** A small instance, to run the script on *)

Module Toy.

Definition dom : domain :=
  {| OS := bool; RngState := Z; NetState := nat; Target := nat; Loader := nat;
     Metrics := nat |}.

Definition a_batch : batch dom :=
  (@mkSample dom [7; 8]%nat (mkTensor [1; 2]%nat [0; 255]) (mkTensor [1; 2]%nat [255; 0]),
   @mkSample dom [7; 9]%nat (mkTensor [1; 2]%nat [51; 102]) (mkTensor [1; 2]%nat [0; 0])).

(** A batch whose masked and unmasked images have different sizes. *)
Definition odd_batch : batch dom :=
  (@mkSample dom [7; 8]%nat (mkTensor [1; 2]%nat [0; 255]) (mkTensor [1; 3]%nat [255; 0; 0]),
   @mkSample dom [7; 9]%nat (mkTensor [1; 2]%nat [51; 102]) (mkTensor [1; 2]%nat [0; 0])).

(** The network: its state counts the checkpoints loaded; the embedding of an
    image is the image itself.  [loaded] is what loading a checkpoint does
    and [b] the batch the loader yields.  A loader is the number of its
    batches: the training loader has two, the test loader one. *)
Definition ext_with (loaded : outcome unit) (b : batch dom) : externals dom :=
  @mkExternals dom
    (* seeded *) (fun s => s)
    (* cuda_is_available *) (fun o => o)
    (* set_logger *) (fun _ e => (Ok tt, e))
    (* logging_info *) (fun _ e => (Ok tt, e))
    (* create_dataloader *) (fun _ _ _ e => (Ok (2%nat, 1%nat), e))
    (* new_FocusFace *) (fun _ e => (Ok O, e))
    (* load_checkpoint *) (fun _ n e => (loaded, (S n, e)))
    (* num_batches *) (fun l => l)
    (* next_batch *) (fun _ _ e => (Ok b, e))
    (* forward *) (fun n img _ _ _ e => (Ok [[]; [data img]], (n, e)))
    (* evaluate_metrics *) (fun _ g i _ _ e => (Ok (length g + length i)%nat, e))
    (* save_dict_to_json *) (fun _ _ e => (Ok tt, e)).

Definition ext : externals dom := ext_with (Ok tt) a_batch.

Definition init (seed : Z) : world dom :=
  @mkWorld dom (@mkEnv dom seed seed false) true (fun _ => O) O [].

(** A world with the environment of [init seed] and the same network 0, in
    which other networks exist, the gradient mode is off and calls have
    already been made. *)
Definition later (seed : Z) : world dom :=
  @mkWorld dom (@mkEnv dom seed seed false) false
    (fun h => if Nat.eqb h 0 then O else 5%nat) 3%nat
    [(CudaIsAvailable, None)].

Definition args : arguments :=
  {| data_dir := "data/val"; model_dir := "result/base_model"; pretrained := "last" |}.

End Toy.

(** ** Vocabulary of the further properties *)

(** The inner product of two rows of the same width. *)
Definition dot (a b : vector) : R :=
  sum_list (map (fun p => fst p * snd p) (combine a b)).

Definition unit_interval (s : R) : Prop := 0 <= s <= 1.

Section FurtherVocabulary.
Variable D : domain.

(** A call of [evaluate_metrics] whose two score lists lie in [[-1, 1]]. *)
Definition metrics_scores_ok (ev : event D) : Prop :=
  match fst ev with
  | EvaluateMetrics _ g i _ _ =>
      Forall (fun s => -1 <= s <= 1) g /\ Forall (fun s => -1 <= s <= 1) i
  | _ => True
  end.

(** A call on a network is a call on the network [net]. *)
Definition on_net (net : handle) (ev : event D) : Prop :=
  match fst ev with
  | Forward h _ _ _ _ => h = net
  | LoadCheckpoint _ h => h = net
  | _ => True
  end.

(** The run of [m] from [w] returns. *)
Definition returns {A} (m : M D A) (w : world D) : Prop :=
  exists a, fst (m w) = Ok a.

(** The constants of the main procedure, at the calls that receive one. *)
Definition constants_ok (args : arguments) (ev : event D) : Prop :=
  match fst ev with
  | TorchManualSeed seed | CudaManualSeed seed => seed = 230%Z
  | CreateDataloader dir batch_size workers =>
      dir = data_dir args /\ batch_size = 64%Z /\ workers = 2%Z
  | FocusFace identities => identities = 601%Z
  | Forward _ _ _ inference _ => inference = true
  | EvaluateMetrics dir _ _ clf_name print_results =>
      dir = model_dir args /\ clf_name = "A"%string /\ print_results = true
  | _ => True
  end.

(** The batches fetched in a trace, in order: the loader and the index. *)
Fixpoint fetched (tr : list (event D)) : list (Loader D * nat) :=
  match tr with
  | [] => []
  | (NextBatch loader i, _) :: tr' => (loader, i) :: fetched tr'
  | _ :: tr' => fetched tr'
  end.

(** The number of forward passes in a trace. *)
Fixpoint forward_passes (tr : list (event D)) : nat :=
  match tr with
  | [] => O
  | (Forward _ _ _ _ _, _) :: tr' => S (forward_passes tr')
  | _ :: tr' => forward_passes tr'
  end.

(** An event that is not a call of [evaluate_metrics]. *)
Definition not_metrics (ev : event D) : Prop :=
  match fst ev with
  | EvaluateMetrics _ _ _ _ _ => False
  | _ => True
  end.

End FurtherVocabulary.

Arguments metrics_scores_ok {D} ev.
Arguments on_net {D} net ev.
Arguments not_metrics {D} ev.

(** An instance whose network returns a tuple of one component. *)
Module ToyShort.

Definition ext : externals Toy.dom :=
  @mkExternals Toy.dom
    (* seeded *) (fun s => s)
    (* cuda_is_available *) (fun o => o)
    (* set_logger *) (fun _ e => (Ok tt, e))
    (* logging_info *) (fun _ e => (Ok tt, e))
    (* create_dataloader *) (fun _ _ _ e => (Ok (1%nat, 1%nat), e))
    (* new_FocusFace *) (fun _ e => (Ok O, e))
    (* load_checkpoint *) (fun _ n e => (Ok tt, (S n, e)))
    (* num_batches *) (fun l => l)
    (* next_batch *) (fun _ _ e => (Ok Toy.a_batch, e))
    (* forward *) (fun n img _ _ _ e => (Ok [[data img]], (S n, e)))
    (* evaluate_metrics *) (fun _ g i _ _ e => (Ok (length g + length i)%nat, e))
    (* save_dict_to_json *) (fun _ _ e => (Ok tt, e)).

End ToyShort.

(** ** The procedure in the words of the specification *)

(** The sum, over the coordinates, of the squares of the differences of two
    rows. *)
Fixpoint squared_distance (a b : vector) : R :=
  match a, b with
  | x :: a', y :: b' => (x - y) * (x - y) + squared_distance a' b'
  | _, _ => 0
  end.

(** [s] is the similarity of the rows [a] and [b]: 1 minus half their
    Euclidean distance, the number [d >= 0] whose square is the sum of the
    squared differences. *)
Definition similarity (a b : vector) (s : R) : Prop :=
  exists d, 0 <= d /\ d * d = squared_distance a b /\ s = 1 - d / 2.

(** [scores] holds the similarity of every pair of rows of [x1] and [x2], in
    the order of the rows. *)
Definition pairwise_scores (x1 x2 : matrix) (scores : list R) : Prop :=
  length scores = length x1 /\
  forall j, (j < length x1)%nat ->
    similarity (nth j x1 []) (nth j x2 []) (nth j scores 0).

(** [img] is [input] with every pixel value [v] replaced by [v / 127.5 - 1]. *)
Definition normalized_input (input img : tensor) : Prop :=
  shape img = shape input /\
  data img = map (fun v => v / 127.5 - 1) (data input).

Section Procedure.
Variable D : domain.
Variable X : externals D.

(** [create_dataloader], called on [data_dir] with batch size 64 and 2
    workers, returns the pair of loaders [(train, test)]. *)
Definition loads (args : arguments) (train test : Loader D) : Prop :=
  exists e e',
    create_dataloader X (data_dir args) 64 2 e = (Ok (train, test), e').

(** [b] is the [i]-th batch of [loader]. *)
Definition yields (loader : Loader D) (i : nat) (b : batch D) : Prop :=
  exists e e', next_batch X loader i e = (Ok b, e').

(** [embed] is the embedding of [input]: component 1 of what the network
    returns for the normalised image, run in inference mode with the gradient
    mode off. *)
Definition embeds (input : tensor) (tgt : Target D) (embed : matrix) : Prop :=
  exists img n e out rest,
    normalized_input input img /\
    forward X n img tgt true false e = (Ok out, rest) /\
    nth_error out 1 = Some embed.

(** [s] holds the genuine and the impostor scores of the batch [b]: the
    pairwise similarities of the normalised embeddings of the masked and of
    the unmasked images, of the genuine sample with the first component of
    its target and of the impostor sample with the second component of its
    own. *)
Definition batch_scored (b : batch D) (s : list R * list R) : Prop :=
  exists gen_target imp_target gen_emb1 gen_emb2 imp_emb1 imp_emb2,
    nth_error (target (fst b)) 0 = Some gen_target /\
    nth_error (target (snd b)) 1 = Some imp_target /\
    embeds (masked (fst b)) gen_target gen_emb1 /\
    embeds (unmasked (fst b)) gen_target gen_emb2 /\
    embeds (masked (snd b)) imp_target imp_emb1 /\
    embeds (unmasked (snd b)) imp_target imp_emb2 /\
    pairwise_scores (normalize gen_emb1) (normalize gen_emb2) (fst s) /\
    pairwise_scores (normalize imp_emb1) (normalize imp_emb2) (snd s).

(** [metrics] is what [evaluate_metrics] returns for the two score lists. *)
Definition computes (dir : string) (gscores iscores : list R)
    (metrics : Metrics D) : Prop :=
  exists e e',
    evaluate_metrics X dir gscores iscores "A" true e = (Ok metrics, e').

(** A call that [evaluate] may make as far as the networks are concerned: no
    network is built, no checkpoint is loaded, and a forward pass is a pass
    on [net] in inference mode with the gradient mode off. *)
Definition inference_pass (net : handle) (ev : event D) : Prop :=
  match fst ev with
  | Forward h _ _ inference grad => h = net /\ inference = true /\ grad = false
  | LoadCheckpoint _ _ | FocusFace _ => False
  | _ => True
  end.

(** Run with the gradient mode off, [m] leaves it off, leaves every network
    other than [net] as it was and makes only calls that are inference
    passes on [net]. *)
Definition frames_network {A} (net : handle) (m : M D A) : Prop :=
  forall w,
    grad_enabled w = false ->
    grad_enabled (snd (m w)) = false /\
    (forall h, h <> net -> nets (snd (m w)) h = nets w h) /\
    exists evs,
      trace (snd (m w)) = trace w ++ evs /\ Forall (inference_pass net) evs.

End Procedure.

(** An instance whose network counts its forward passes, as a network with
    batch-normalisation layers that is left in training mode updates its
    running statistics. *)
Module ToyStateful.

Definition ext : externals Toy.dom :=
  @mkExternals Toy.dom
    (* seeded *) (fun s => s)
    (* cuda_is_available *) (fun o => o)
    (* set_logger *) (fun _ e => (Ok tt, e))
    (* logging_info *) (fun _ e => (Ok tt, e))
    (* create_dataloader *) (fun _ _ _ e => (Ok (2%nat, 1%nat), e))
    (* new_FocusFace *) (fun _ e => (Ok O, e))
    (* load_checkpoint *) (fun _ n e => (Ok tt, (n, e)))
    (* num_batches *) (fun l => l)
    (* next_batch *) (fun _ _ e => (Ok Toy.a_batch, e))
    (* forward *) (fun n img _ _ _ e => (Ok [[]; [data img]], (S n, e)))
    (* evaluate_metrics *) (fun _ g i _ _ e => (Ok (length g + length i)%nat, e))
    (* save_dict_to_json *) (fun _ _ e => (Ok tt, e)).

End ToyStateful.

(** * Properties *)

(** ** Sums of squares *)

Lemma sum_list_squares_nonneg (v : vector) :
  0 <= sum_list (map (fun x => x * x) v).
Proof.
  induction v as [|x v IH]; simpl.
  - lra.
  - pose proof (Rle_0_sqr x) as Hx. unfold Rsqr in Hx. lra.
Qed.

(** The parallelogram bound: |a - b|^2 <= 2|a|^2 + 2|b|^2. *)
Lemma sum_sq_diff_le (a b : vector) :
  sum_list (map (fun p => (fst p - snd p) * (fst p - snd p)) (combine a b))
  <= 2 * sum_list (map (fun x => x * x) a) + 2 * sum_list (map (fun x => x * x) b).
Proof.
  revert b. induction a as [|x a IH]; intros [|y b]; simpl.
  - lra.
  - pose proof (sum_list_squares_nonneg b). pose proof (Rle_0_sqr y) as Hy.
    unfold Rsqr in Hy. lra.
  - pose proof (sum_list_squares_nonneg a). pose proof (Rle_0_sqr x) as Hx.
    unfold Rsqr in Hx. lra.
  - specialize (IH b). pose proof (Rle_0_sqr (x + y)) as Hxy.
    unfold Rsqr in Hxy. lra.
Qed.

Lemma l2_norm_nonneg (v : vector) : 0 <= l2_norm v.
Proof. apply sqrt_pos. Qed.

Lemma l2_dist_nonneg (a b : vector) : 0 <= l2_dist a b.
Proof. apply sqrt_pos. Qed.

Lemma l2_norm_sq (v : vector) :
  l2_norm v * l2_norm v = sum_list (map (fun x => x * x) v).
Proof. apply sqrt_sqrt, sum_list_squares_nonneg. Qed.

(** The distance [torch.cdist] computes is the Euclidean distance: it is not
    negative and its square is the sum of the squared differences. *)
Lemma sum_sq_diff_squared_distance (a b : vector) :
  sum_list (map (fun p => (fst p - snd p) * (fst p - snd p)) (combine a b))
  = squared_distance a b.
Proof.
  revert b. induction a as [|x a IH]; intros [|y b]; simpl; try reflexivity.
  now rewrite IH.
Qed.

Lemma squared_distance_nonneg (a b : vector) : 0 <= squared_distance a b.
Proof.
  revert b. induction a as [|x a IH]; intros [|y b]; simpl; try lra.
  specialize (IH b). pose proof (Rle_0_sqr (x - y)) as Hxy.
  unfold Rsqr in Hxy. lra.
Qed.

Lemma l2_dist_sq (a b : vector) :
  l2_dist a b * l2_dist a b = squared_distance a b.
Proof.
  unfold l2_dist. rewrite sum_sq_diff_squared_distance.
  apply sqrt_sqrt, squared_distance_nonneg.
Qed.

Lemma row_similarity_similarity (embed1 embed2 : matrix) (i : nat) :
  similarity (nth i embed1 []) (nth i embed2 []) (row_similarity embed1 embed2 i).
Proof.
  exists (l2_dist (nth i embed1 []) (nth i embed2 [])).
  split; [apply l2_dist_nonneg|]. split; [apply l2_dist_sq | reflexivity].
Qed.

(** Two vectors of norm at most 1 are at distance at most 2. *)
Lemma l2_dist_le_2 (a b : vector) :
  l2_norm a <= 1 -> l2_norm b <= 1 -> l2_dist a b <= 2.
Proof.
  intros Ha Hb.
  pose proof (l2_norm_nonneg a) as Ha0. pose proof (l2_norm_nonneg b) as Hb0.
  pose proof (l2_norm_sq a) as Sa. pose proof (l2_norm_sq b) as Sb.
  pose proof (sum_sq_diff_le a b) as Hd.
  unfold l2_dist.
  replace 2 with (sqrt (2 * 2)) by (apply sqrt_square; lra).
  apply sqrt_le_1_alt. nra.
Qed.

(** ** [embedding_dist] *)

(** The similarity of the rows [a] and [b]. *)
Lemma pair_similarity_rows (embed1 embed2 : matrix) (i : nat) (a b : vector) :
  nth_error embed1 i = Some a ->
  nth_error embed2 i = Some b ->
  length a = length b ->
  pair_similarity embed1 embed2 i = Ok (1 - l2_dist a b / 2).
Proof.
  intros H1 H2 Hab.
  unfold pair_similarity, getitem, reshape_1. rewrite H1. simpl.
  rewrite H2. simpl.
  unfold cdist. simpl ncols.
  rewrite Hab, Nat.eqb_refl. reflexivity.
Qed.

(** The loop appends one score per index, in the order of the indices. *)
Lemma embedding_dist_loop_map (embed1 embed2 : matrix) (f : nat -> R)
    (range : list nat) :
  (forall i, In i range -> pair_similarity embed1 embed2 i = Ok (f i)) ->
  forall embeds,
    embedding_dist_loop embed1 embed2 range embeds = Ok (embeds ++ map f range).
Proof.
  induction range as [|i range IH]; intros Hf embeds; simpl.
  - now rewrite app_nil_r.
  - rewrite (Hf i (or_introl eq_refl)). simpl.
    rewrite IH by (intros j Hj; apply Hf; now right).
    now rewrite <- app_assoc.
Qed.

(** When every index of [embed1] has a row in both batches, the two rows of
    the same width, the result is the list of the row similarities, in the
    order of the rows. *)
Lemma embedding_dist_paired (embed1 embed2 : matrix) :
  (forall i, (i < length embed1)%nat ->
     exists a b, nth_error embed1 i = Some a /\ nth_error embed2 i = Some b /\
                 length a = length b) ->
  embedding_dist embed1 embed2
  = Ok (map (row_similarity embed1 embed2) (seq 0 (length embed1))).
Proof.
  intros H. unfold embedding_dist.
  rewrite embedding_dist_loop_map with (f := row_similarity embed1 embed2);
    [reflexivity|].
  intros i Hi. apply in_seq in Hi.
  destruct (H i) as (a & b & E1 & E2 & Hab); [lia|].
  unfold row_similarity.
  rewrite (nth_error_nth _ _ _ E1), (nth_error_nth _ _ _ E2).
  now apply pair_similarity_rows.
Qed.

Lemma embedding_dist_rows (embed1 embed2 : matrix) (k : nat) :
  (length embed1 <= length embed2)%nat ->
  Forall (width k) embed1 ->
  Forall (width k) embed2 ->
  embedding_dist embed1 embed2
  = Ok (map (row_similarity embed1 embed2) (seq 0 (length embed1))).
Proof.
  intros Hlen H1 H2. apply embedding_dist_paired. intros i Hi1.
  assert (Hi2 : (i < length embed2)%nat) by lia.
  rewrite Forall_forall in H1, H2.
  exists (nth i embed1 []), (nth i embed2 []).
  pose proof (H1 _ (nth_In embed1 [] Hi1)) as L1.
  pose proof (H2 _ (nth_In embed2 [] Hi2)) as L2.
  unfold width in L1, L2.
  repeat split; auto using nth_error_nth'.
  congruence.
Qed.

(** C1: for two embedding batches with the same first dimension [n], rows
    of one width, [embedding_dist] returns [n] scores, and the score at every
    index [i < n] is [1 - d / 2] for [d] the Euclidean distance between row
    [i] of [embed1] and row [i] of [embed2]: the number [d >= 0] whose square
    is the sum, over the coordinates, of the squared differences of the two
    rows. *)
Theorem embedding_dist_l2_scores (embed1 embed2 : matrix) (n k : nat) :
  length embed1 = n ->
  length embed2 = n ->
  Forall (width k) embed1 ->
  Forall (width k) embed2 ->
  exists scores,
    embedding_dist embed1 embed2 = Ok scores /\
    length scores = n /\
    forall i, (i < n)%nat ->
      exists d,
        0 <= d /\
        d * d = squared_distance (nth i embed1 []) (nth i embed2 []) /\
        nth i scores 0 = 1 - d / 2.
Proof.
  intros Hn1 Hn2 H1 H2.
  eexists. split; [apply embedding_dist_rows with (k := k); auto; lia|].
  split.
  - rewrite length_map, length_seq. exact Hn1.
  - intros i Hi.
    rewrite nth_indep with (d' := row_similarity embed1 embed2 O)
      by (rewrite length_map, length_seq; lia).
    rewrite map_nth, seq_nth by lia. apply row_similarity_similarity.
Qed.

(** The rows [3; 4] and [0; 0] are at distance 5 and score -3/2; two equal
    rows score 1. *)
Lemma embedding_dist_l2_scores_witness :
  exists scores,
    embedding_dist [[3; 4]; [1; 1]] [[0; 0]; [1; 1]] = Ok scores /\
    length scores = 2%nat /\
    nth 0 scores 0 = - 3 / 2 /\
    nth 1 scores 0 = 1.
Proof.
  destruct (@embedding_dist_l2_scores [[3; 4]; [1; 1]] [[0; 0]; [1; 1]] 2 2)
    as (scores & E & L & S);
    [reflexivity | reflexivity | repeat constructor | repeat constructor |].
  exists scores. split; [exact E|]. split; [exact L|]. split.
  - destruct (S 0%nat) as (d & D0 & DD & ->); [lia|]. simpl in DD.
    assert (Hd : d = 5) by nra. rewrite Hd. lra.
  - destruct (S 1%nat) as (d & D0 & DD & ->); [lia|]. simpl in DD.
    assert (Hd : d = 0) by nra. rewrite Hd. lra.
Defined.

(** C9: the result of [embedding_dist] is a list of scalars (the type of the
    function here, the list the code builds with [append]), with exactly one
    score per row of the first batch. *)
Theorem embedding_dist_length (embed1 embed2 : matrix) (n k : nat) :
  embedding_batch n k embed1 ->
  embedding_batch n k embed2 ->
  exists scores : list R,
    embedding_dist embed1 embed2 = Ok scores /\ length scores = n.
Proof.
  intros (Hn1 & Hk & H1) (Hn2 & _ & H2).
  eexists. split; [apply embedding_dist_rows with (k := k); auto; lia|].
  now rewrite length_map, length_seq.
Qed.

Lemma embedding_dist_length_witness :
  exists scores : list R,
    embedding_dist [[1]; [2]; [3]] [[4]; [5]; [6]] = Ok scores /\
    length scores = 3%nat.
Proof.
  apply (@embedding_dist_length [[1]; [2]; [3]] [[4]; [5]; [6]] 3 1);
    (split; [reflexivity | split; [lia | repeat constructor]]).
Defined.

Lemma row_similarity_range (embed1 embed2 : matrix) (i : nat) :
  l2_norm (nth i embed1 []) <= 1 ->
  l2_norm (nth i embed2 []) <= 1 ->
  0 <= row_similarity embed1 embed2 i <= 1.
Proof.
  intros H1 H2. unfold row_similarity.
  pose proof (l2_dist_le_2 _ _ H1 H2).
  pose proof (l2_dist_nonneg (nth i embed1 []) (nth i embed2 [])).
  lra.
Qed.

(** The bound of the specification has room for vectors that are only nearly
    normalised: it holds up to norm 2. *)
Lemma row_similarity_margin (embed1 embed2 : matrix) (i : nat) :
  l2_norm (nth i embed1 []) <= 2 ->
  l2_norm (nth i embed2 []) <= 2 ->
  -1 <= row_similarity embed1 embed2 i <= 1.
Proof.
  intros H1 H2. unfold row_similarity.
  set (a := nth i embed1 []) in *. set (b := nth i embed2 []) in *.
  pose proof (l2_norm_nonneg a) as Ha0. pose proof (l2_norm_nonneg b) as Hb0.
  pose proof (l2_norm_sq a) as Sa. pose proof (l2_norm_sq b) as Sb.
  pose proof (sum_sq_diff_le a b) as Hd.
  pose proof (l2_dist_nonneg a b) as Hd0.
  assert (Hle : l2_dist a b <= 4).
  { unfold l2_dist. replace 4 with (sqrt (4 * 4)) by (apply sqrt_square; lra).
    apply sqrt_le_1_alt. nra. }
  lra.
Qed.

(** C2: for two embedding batches of unit-norm vectors, every score of
    [embedding_dist] lies in [[-1, 1]] (in fact in [[0, 1]]). *)
Theorem embedding_dist_unit_range (embed1 embed2 : matrix) (n k : nat) :
  embedding_batch n k embed1 ->
  embedding_batch n k embed2 ->
  Forall unit_norm embed1 ->
  Forall unit_norm embed2 ->
  exists scores,
    embedding_dist embed1 embed2 = Ok scores /\
    Forall (fun s => -1 <= s <= 1) scores /\
    Forall (fun s => 0 <= s <= 1) scores.
Proof.
  intros (Hn1 & Hk & W1) (Hn2 & _ & W2) H1 H2.
  assert (Hrange : forall i, (i < length embed1)%nat ->
            0 <= row_similarity embed1 embed2 i <= 1).
  { intros i Hi. apply row_similarity_range.
    - rewrite Forall_nth in H1. pose proof (H1 i [] Hi) as U.
      unfold unit_norm in U. lra.
    - rewrite Forall_nth in H2. unfold matrix, vector in *.
      pose proof (H2 i [] ltac:(lia)) as U. unfold unit_norm in U. lra. }
  eexists. split; [apply embedding_dist_rows with (k := k); auto; lia|].
  split; apply Forall_forall; intros s Hs; apply in_map_iff in Hs;
    destruct Hs as (i & <- & Hi); apply in_seq in Hi;
    specialize (Hrange i ltac:(lia)); cbv beta; lra.
Qed.

Lemma unit_norm_e1 : unit_norm [1; 0].
Proof.
  unfold unit_norm, l2_norm. simpl.
  replace (1 * 1 + (0 * 0 + 0)) with 1 by lra. apply sqrt_1.
Qed.

Lemma unit_norm_e2 : unit_norm [0; 1].
Proof.
  unfold unit_norm, l2_norm. simpl.
  replace (0 * 0 + (1 * 1 + 0)) with 1 by lra. apply sqrt_1.
Qed.

Lemma embedding_dist_unit_range_witness :
  exists scores,
    embedding_dist [[1; 0]; [0; 1]] [[0; 1]; [0; 1]] = Ok scores /\
    Forall (fun s => -1 <= s <= 1) scores /\
    Forall (fun s => 0 <= s <= 1) scores.
Proof.
  apply (@embedding_dist_unit_range [[1; 0]; [0; 1]] [[0; 1]; [0; 1]] 2 2).
  - split; [reflexivity | split; [lia | repeat constructor]].
  - split; [reflexivity | split; [lia | repeat constructor]].
  - repeat constructor; [apply unit_norm_e1 | apply unit_norm_e2].
  - repeat constructor; apply unit_norm_e2.
Defined.

(** *** The rows [evaluate] compares *)

Lemma sum_list_squares_scaled (v : vector) (c : R) :
  c <> 0 ->
  sum_list (map (fun x => x * x) (map (fun x => x / c) v))
  = sum_list (map (fun x => x * x) v) / (c * c).
Proof.
  intros Hc. induction v as [|x v IH]; simpl.
  - unfold Rdiv. lra.
  - rewrite IH. field. exact Hc.
Qed.

(** A row out of [normalize] has norm at most 1. *)
Lemma normalize_row_norm (v : vector) : l2_norm (normalize_row v) <= 1.
Proof.
  unfold normalize_row.
  set (c := Rmax (l2_norm v) normalize_eps).
  assert (Hc : 0 < c).
  { apply Rlt_le_trans with normalize_eps; [unfold normalize_eps; lra|].
    apply Rmax_r. }
  assert (Hv : l2_norm v <= c) by apply Rmax_l.
  unfold l2_norm at 1. rewrite sum_list_squares_scaled by lra.
  rewrite <- sqrt_1. apply sqrt_le_1_alt.
  pose proof (l2_norm_sq v) as S. pose proof (l2_norm_nonneg v) as N.
  apply Rmult_le_reg_r with (c * c); [nra|].
  unfold Rdiv. rewrite Rmult_assoc, Rinv_l by nra. nra.
Qed.

Lemma normalize_nth_norm (x : matrix) (i : nat) :
  l2_norm (nth i (normalize x) []) <= 1.
Proof.
  destruct (Nat.lt_ge_cases i (length (normalize x))) as [Hi|Hi].
  - unfold normalize in *. rewrite length_map in Hi.
    rewrite nth_indep with (d' := normalize_row []) by now rewrite length_map.
    rewrite map_nth. apply normalize_row_norm.
  - rewrite nth_overflow by exact Hi. unfold l2_norm. simpl.
    rewrite sqrt_0. lra.
Qed.

(** Whatever [pair_similarity] returns is the similarity of the two rows. *)
Lemma pair_similarity_inv (embed1 embed2 : matrix) (i : nat) (s : R) :
  pair_similarity embed1 embed2 i = Ok s -> s = row_similarity embed1 embed2 i.
Proof.
  unfold pair_similarity, row_similarity, getitem.
  destruct (nth_error embed1 i) as [a|] eqn:E1; simpl; [|discriminate].
  destruct (nth_error embed2 i) as [b|] eqn:E2; simpl; [|discriminate].
  unfold cdist. destruct (Nat.eqb _ _); simpl; [|discriminate].
  intros H. injection H as <-.
  now rewrite (nth_error_nth _ _ _ E1), (nth_error_nth _ _ _ E2).
Qed.

Lemma embedding_dist_loop_inv (embed1 embed2 : matrix) (range : list nat) :
  forall embeds scores,
    embedding_dist_loop embed1 embed2 range embeds = Ok scores ->
    scores = embeds ++ map (row_similarity embed1 embed2) range.
Proof.
  induction range as [|i range IH]; intros embeds scores; simpl.
  - intros H. injection H as <-. now rewrite app_nil_r.
  - destruct (pair_similarity embed1 embed2 i) as [s|e] eqn:E; simpl;
      [|discriminate].
    intros H. apply IH in H. apply pair_similarity_inv in E. subst.
    now rewrite <- app_assoc.
Qed.

(** The scores of two normalised batches, as [evaluate] computes them at
    lines 92-100, lie in [[0, 1]]. *)
Lemma normalized_scores_range (x1 x2 : matrix) (scores : list R) :
  embedding_dist (normalize x1) (normalize x2) = Ok scores ->
  Forall (fun s => 0 <= s <= 1) scores.
Proof.
  intros H. apply embedding_dist_loop_inv in H. simpl in H. subst scores.
  apply Forall_forall. intros s Hs. apply in_map_iff in Hs.
  destruct Hs as (i & <- & _).
  apply row_similarity_range; apply normalize_nth_norm.
Qed.

(** ** Runs and their traces *)

Section RunSpec.
Variable D : domain.
Variable X : externals D.

Lemma run_spec_weaken {A} (m : M D A) (Q Q' : outcome A -> list (event D) -> Prop) :
  run_spec m Q -> (forall r evs, Q r evs -> Q' r evs) -> run_spec m Q'.
Proof.
  intros Hm HQ w. destruct (Hm w) as (evs & T & HQm). eauto.
Qed.

Lemma run_spec_ret {A} (a : A) (Q : outcome A -> list (event D) -> Prop) :
  Q (Ok a) [] -> run_spec (ret a) Q.
Proof. intros HQ w. exists []. simpl. now rewrite app_nil_r. Qed.

Lemma run_spec_lift {A} (o : outcome A) (Q : outcome A -> list (event D) -> Prop) :
  (forall a, Q (Ok a) []) ->
  (forall e, Q (Raise e) [(LibraryOp, Some e)]) ->
  run_spec (lift o) Q.
Proof.
  intros Hok Hraise w. unfold lift. destruct o as [a|e]; simpl.
  - exists []. now rewrite app_nil_r.
  - eexists. split; [reflexivity | apply Hraise].
Qed.

Lemma run_spec_call_env {A} (c : call D) (f : env D -> outcome A * env D)
    (Q : outcome A -> list (event D) -> Prop) :
  (forall r, Q r [(c, status r)]) -> run_spec (call_env c f) Q.
Proof.
  intros HQ w. unfold call_env. destruct (f (w_env w)) as [r e']. simpl.
  eexists. split; [reflexivity | apply HQ].
Qed.

Lemma run_spec_call_net {A} (c : call D) (h : handle)
    (f : NetState D -> env D -> outcome A * (NetState D * env D))
    (Q : outcome A -> list (event D) -> Prop) :
  (forall r, Q r [(c, status r)]) -> run_spec (call_net c h f) Q.
Proof.
  intros HQ w. unfold call_net.
  destruct (f (nets w h) (w_env w)) as [r [n' e']]. simpl.
  eexists. split; [reflexivity | apply HQ].
Qed.

Lemma run_spec_net_call (net : handle) (img : tensor) (tgt : Target D)
    (inference : bool) (Q : outcome (list matrix) -> list (event D) -> Prop) :
  (forall g r, Q r [(Forward net img tgt inference g, status r)]) ->
  run_spec (net_call X net img tgt inference) Q.
Proof.
  intros HQ w. unfold net_call.
  destruct (@run_spec_call_net _
              (Forward net img tgt inference (grad_enabled w)) net
              (fun n => forward X n img tgt inference (grad_enabled w))
              Q (HQ (grad_enabled w)) w) as (evs & T & HQw).
  eauto.
Qed.

Lemma run_spec_model_FocusFace (identities : Z)
    (Q : outcome handle -> list (event D) -> Prop) :
  (forall r, Q r [(FocusFace identities, status r)]) ->
  run_spec (model_FocusFace X identities) Q.
Proof.
  intros HQ w. unfold model_FocusFace.
  destruct (new_FocusFace X identities (w_env w)) as [[n|e] e']; simpl;
    eexists; (split; [reflexivity|]).
  - apply (HQ (Ok (next_handle w))).
  - apply (HQ (Raise e)).
Qed.

Lemma run_spec_bind {A B} (m : M D A) (k : A -> M D B)
    (Q1 : outcome A -> list (event D) -> Prop)
    (Q2 : A -> outcome B -> list (event D) -> Prop)
    (Q : outcome B -> list (event D) -> Prop) :
  run_spec m Q1 ->
  (forall a, run_spec (k a) (Q2 a)) ->
  (forall e evs, Q1 (Raise e) evs -> Q (Raise e) evs) ->
  (forall a evs1 r evs2, Q1 (Ok a) evs1 -> Q2 a r evs2 -> Q r (evs1 ++ evs2)) ->
  run_spec (bind m k) Q.
Proof.
  intros Hm Hk Hraise Hok w. unfold bind.
  destruct (Hm w) as (evs1 & T1 & H1).
  destruct (m w) as [[a|e] w1]; simpl in *.
  - destruct (Hk a w1) as (evs2 & T2 & H2).
    exists (evs1 ++ evs2). rewrite T2, T1, app_assoc. eauto.
  - exists evs1. eauto.
Qed.

Lemma run_spec_with_no_grad {A} (body : M D A)
    (Q : outcome A -> list (event D) -> Prop) :
  run_spec body Q -> run_spec (with_no_grad body) Q.
Proof.
  intros Hb w. unfold with_no_grad.
  destruct (Hb (set_grad false w)) as (evs & T & HQ).
  destruct (body (set_grad false w)) as [r w']. simpl in *. eauto.
Qed.

End RunSpec.

(** ** [generate_embeddings] *)

Lemma normalize_pixels_formula (input : tensor) :
  normalize_pixels input = tensor_map (fun v => v / 127.5 - 1) input.
Proof.
  unfold normalize_pixels, tensor_div, tensor_sub, tensor_map. simpl.
  f_equal. rewrite !map_map. apply map_ext. intros v. lra.
Qed.

Lemma normalize_pixels_range (input : tensor) :
  Forall (fun v => 0 <= v <= 255) (data input) ->
  Forall (fun v => -1 <= v <= 1) (data (normalize_pixels input)).
Proof.
  intros H. rewrite normalize_pixels_formula. simpl.
  apply Forall_map. revert H. apply Forall_impl. intros v Hv. lra.
Qed.

(** The one call [generate_embeddings] makes is the forward pass, on the
    normalised image; what may follow it in the trace is the failure to take
    the second component of its result. *)
Lemma generate_embeddings_trace (D : domain) (X : externals D) (net : handle)
    (tgt : Target D) (input : tensor) (w : world D) :
  exists st rest,
    trace (snd (generate_embeddings X net tgt input w))
    = trace w
      ++ (Forward net (normalize_pixels input) tgt true (grad_enabled w), st) :: rest /\
    Forall (fun ev => fst ev = LibraryOp) rest.
Proof.
  unfold generate_embeddings, bind, net_call, call_net, log_call.
  destruct (forward X (nets w net) (normalize_pixels input) tgt true
              (grad_enabled w) (w_env w)) as [[out|e] [n' e']]; simpl.
  - unfold lift, ret, log_call. destruct (getitem out 1); simpl.
    + eauto.
    + rewrite <- app_assoc. simpl. eauto.
  - eauto.
Qed.

(** C5: for an image whose pixel values lie in [[0, 255]],
    [generate_embeddings] passes to the model the image in which every pixel
    [v] has become [((v / 255) - 0.5) / 0.5 = v / 127.5 - 1], a value of
    [[-1, 1]]; the call of the model on that image is the first thing it
    does and the only call it makes. *)
Theorem generate_embeddings_normalizes (D : domain) (X : externals D)
    (net : handle) (tgt : Target D) (input : tensor) (w : world D) :
  Forall (fun v => 0 <= v <= 255) (data input) ->
  exists img st rest,
    trace (snd (generate_embeddings X net tgt input w))
    = trace w ++ (Forward net img tgt true (grad_enabled w), st) :: rest /\
    Forall (fun ev => fst ev = LibraryOp) rest /\
    shape img = shape input /\
    data img = map (fun v => ((v / 255) - 0.5) / 0.5) (data input) /\
    data img = map (fun v => v / 127.5 - 1) (data input) /\
    Forall (fun v => -1 <= v <= 1) (data img).
Proof.
  intros Hrange.
  destruct (generate_embeddings_trace X net tgt input w) as (st & rest & T & L).
  exists (normalize_pixels input), st, rest.
  split; [exact T|]. split; [exact L|]. split; [reflexivity|].
  split; [|split].
  - unfold normalize_pixels, tensor_div, tensor_sub, tensor_map. simpl.
    now rewrite !map_map.
  - now rewrite normalize_pixels_formula.
  - now apply normalize_pixels_range.
Qed.

Lemma generate_embeddings_normalizes_witness :
  exists img st rest,
    trace (snd (generate_embeddings Toy.ext 0%nat 7%nat
                  (mkTensor [1; 2]%nat [0; 255]) (Toy.init 1)))
    = trace (Toy.init 1)
      ++ (@Forward Toy.dom 0%nat img 7%nat true true, st) :: rest /\
    Forall (fun ev => fst ev = LibraryOp) rest /\
    shape img = [1; 2]%nat /\
    data img = map (fun v => ((v / 255) - 0.5) / 0.5) [0; 255] /\
    data img = map (fun v => v / 127.5 - 1) [0; 255] /\
    Forall (fun v => -1 <= v <= 1) (data img).
Proof.
  apply (@generate_embeddings_normalizes Toy.dom Toy.ext 0%nat 7%nat
           (mkTensor [1; 2]%nat [0; 255]) (Toy.init 1)).
  simpl. repeat constructor; lra.
Defined.

(** ** Properties that follow the sequencing of the script

    [P] is a property of an outcome and of the events of a run that holds of
    the empty run, is kept when an exception passes through a caller and when
    a run that returned is followed by another.  If it holds of every single
    call that satisfies [ok], it holds of every function of the script that
    makes only such calls. *)

Section Sequential.
Variable D : domain.
Variable X : externals D.
Variable P : forall A : Type, outcome A -> list (event D) -> Prop.
Variable ok : call D -> Prop.
Hypothesis P_nil : forall A (r : outcome A), P r [].
Hypothesis P_raise : forall A B e evs, P (@Raise A e) evs -> P (@Raise B e) evs.
Hypothesis P_app : forall A B (a : A) (r : outcome B) evs1 evs2,
  P (Ok a) evs1 -> P r evs2 -> P r (evs1 ++ evs2).
Hypothesis P_call : forall A c (r : outcome A), ok c -> P r [(c, status r)].

Lemma seq_bind {A B} (m : M D A) (k : A -> M D B) :
  run_spec m (@P A) -> (forall a, run_spec (k a) (@P B)) ->
  run_spec (bind m k) (@P B).
Proof.
  intros Hm Hk.
  apply run_spec_bind with (Q1 := @P A) (Q2 := fun _ => @P B);
    [exact Hm | exact Hk | intros e evs; apply P_raise
    | intros a evs1 r evs2; apply P_app].
Qed.

Lemma seq_ret {A} (a : A) : run_spec (ret (D := D) a) (@P A).
Proof. apply run_spec_ret, P_nil. Qed.

Lemma seq_lift {A} (o : outcome A) :
  ok LibraryOp -> run_spec (lift (D := D) o) (@P A).
Proof.
  intros Hc. apply run_spec_lift.
  - intros a. apply P_nil.
  - intros e. now apply (P_call (Raise e)).
Qed.

Lemma seq_call_env {A} (c : call D) (f : env D -> outcome A * env D) :
  ok c -> run_spec (call_env c f) (@P A).
Proof. intros Hc. apply run_spec_call_env. intros r. now apply P_call. Qed.

Lemma seq_call_net {A} (c : call D) (h : handle)
    (f : NetState D -> env D -> outcome A * (NetState D * env D)) :
  ok c -> run_spec (call_net c h f) (@P A).
Proof. intros Hc. apply run_spec_call_net. intros r. now apply P_call. Qed.

Lemma seq_generate_embeddings (net : handle) (tgt : Target D) (input : tensor) :
  ok LibraryOp ->
  (forall img g, ok (Forward net img tgt true g)) ->
  run_spec (generate_embeddings X net tgt input) (@P matrix).
Proof.
  intros Hop Hok. unfold generate_embeddings.
  apply seq_bind;
    [|intros out; apply seq_bind; [now apply seq_lift|intros; apply seq_ret]].
  apply run_spec_net_call. intros g r. apply P_call, Hok.
Qed.

Lemma seq_batch_scores (net : handle) (dev : device) (b : batch D) :
  ok LibraryOp ->
  (forall img tgt g, ok (Forward net img tgt true g)) ->
  run_spec (batch_scores X net dev b) (@P (list R * list R)).
Proof.
  intros Hop Hok. unfold batch_scores. destruct b as [gen imp].
  repeat first
    [ apply seq_ret
    | apply seq_lift; exact Hop
    | apply seq_generate_embeddings; [exact Hop | intros; apply Hok]
    | apply seq_bind; [|intros] ].
Qed.

Lemma seq_evaluate_loop (net : handle) (loader : Loader D) (dev : device)
    (range : list nat) :
  ok LibraryOp ->
  (forall i, In i range -> ok (NextBatch loader i)) ->
  (forall img tgt g, ok (Forward net img tgt true g)) ->
  forall gscores iscores,
    run_spec (evaluate_loop X net loader dev range gscores iscores)
             (@P (list R * list R)).
Proof.
  intros Hop Hnext Hfwd.
  induction range as [|i range IH]; intros gscores iscores; simpl.
  - apply seq_ret.
  - apply seq_bind; [apply seq_call_env, Hnext; now left|intros b].
    apply seq_bind; [now apply seq_batch_scores|intros [g_dist i_dist]].
    apply IH. intros j Hj. apply Hnext. now right.
Qed.

Lemma seq_evaluate (dir : string) (net : handle) (loader : Loader D)
    (dev : device) :
  (forall c, evaluate_call X dir net loader c -> ok c) ->
  run_spec (evaluate X dir net loader dev) (@P (Metrics D)).
Proof.
  intros Hok. unfold evaluate, evaluate_scores.
  apply seq_bind.
  - apply run_spec_with_no_grad, seq_evaluate_loop.
    + apply Hok. constructor.
    + intros i Hi. apply Hok. now constructor.
    + intros img tgt g. apply Hok. constructor.
  - intros [gscores iscores]. apply seq_call_env, Hok. constructor.
Qed.

Lemma seq_main (args : arguments) :
  (forall c, main_call X args c -> ok c) ->
  run_spec (main X args) (@P unit).
Proof.
  intros Hok. unfold main.
  apply seq_bind; [apply seq_call_env, Hok; constructor|intros _].
  apply seq_bind; [apply seq_call_env, Hok; constructor|intros cuda].
  apply seq_bind.
  { destruct cuda; [|apply seq_ret].
    apply seq_bind; [apply seq_call_env, Hok; constructor|intros _; apply seq_ret]. }
  intros dev.
  apply seq_bind; [apply seq_call_env, Hok; constructor|intros _].
  apply seq_bind; [apply seq_call_env, Hok; constructor|intros _].
  apply seq_bind; [apply seq_call_env, Hok; constructor|intros [l test_loader]].
  apply seq_bind; [apply seq_call_env, Hok; constructor|intros _].
  apply seq_bind.
  { apply run_spec_model_FocusFace. intros r. apply P_call, Hok. constructor. }
  intros net.
  apply seq_bind; [apply seq_call_env, Hok; constructor|intros _].
  apply seq_bind; [apply seq_call_net, Hok; constructor|intros _].
  apply seq_bind; [apply seq_call_env, Hok; constructor|intros _].
  apply seq_bind.
  { apply seq_evaluate. intros c Hc. apply Hok.
    now apply mc_evaluate with (net := to_device net dev) (loader := test_loader). }
  intros test_metrics. apply seq_call_env, Hok. constructor.
Qed.

End Sequential.

(** ** Runs that return *)

Section Returns.
Variable D : domain.
Variable X : externals D.

Lemma bind_Ok {A B} (m : M D A) (k : A -> M D B) (w w' : world D) (b : B) :
  bind m k w = (Ok b, w') ->
  exists a w1, m w = (Ok a, w1) /\ k a w1 = (Ok b, w').
Proof.
  unfold bind. destruct (m w) as [[a|e] w1]; [eauto | discriminate].
Qed.

Lemma ret_Ok {A} (a b : A) (w w' : world D) :
  ret a w = (Ok b, w') -> b = a /\ w' = w.
Proof. unfold ret. intros H. injection H as <- <-. auto. Qed.

Lemma lift_Ok {A} (o : outcome A) (a : A) (w w' : world D) :
  lift o w = (Ok a, w') -> o = Ok a /\ w' = w.
Proof.
  unfold lift. destruct o as [a'|e]; intros H; [|discriminate].
  injection H as <- <-. auto.
Qed.

Lemma call_env_Ok {A} (c : call D) (f : env D -> outcome A * env D)
    (w w' : world D) (a : A) :
  call_env c f w = (Ok a, w') -> trace w' = trace w ++ [(c, None)].
Proof.
  unfold call_env. destruct (f (w_env w)) as [r e'].
  intros H. injection H as -> <-. reflexivity.
Qed.

Lemma call_net_Ok {A} (c : call D) (h : handle)
    (f : NetState D -> env D -> outcome A * (NetState D * env D))
    (w w' : world D) (a : A) :
  call_net c h f w = (Ok a, w') -> trace w' = trace w ++ [(c, None)].
Proof.
  unfold call_net. destruct (f (nets w h) (w_env w)) as [r [n' e']].
  intros H. injection H as -> <-. reflexivity.
Qed.

Lemma model_FocusFace_Ok (identities : Z) (w w' : world D) (h : handle) :
  model_FocusFace X identities w = (Ok h, w') ->
  trace w' = trace w ++ [(FocusFace identities, None)].
Proof.
  unfold model_FocusFace.
  destruct (new_FocusFace X identities (w_env w)) as [[n|e] e'];
    intros H; [|discriminate].
  injection H as <- <-. reflexivity.
Qed.

Lemma generate_embeddings_Ok (net : handle) (tgt : Target D) (input : tensor)
    (w w' : world D) (embed : matrix) :
  generate_embeddings X net tgt input w = (Ok embed, w') ->
  exists g,
    trace w' = trace w ++ [(Forward net (normalize_pixels input) tgt true g, None)].
Proof.
  unfold generate_embeddings. intros H.
  apply bind_Ok in H. destruct H as (out & w1 & H1 & H).
  apply bind_Ok in H. destruct H as (emb & w2 & H2 & H).
  apply lift_Ok in H2. destruct H2 as [_ ->].
  apply ret_Ok in H. destruct H as [_ ->].
  unfold net_call in H1. apply call_net_Ok in H1. eauto.
Qed.

(** A batch that is processed to the end makes four forward passes. *)
Lemma batch_scores_Ok (net : handle) (dev : device) (b : batch D)
    (w w' : world D) (s : list R * list R) :
  batch_scores X net dev b w = (Ok s, w') ->
  exists evs,
    trace w' = trace w ++ evs /\
    steps evs = repeat BatchLoop 4 /\ quiet evs.
Proof.
  unfold batch_scores. destruct b as [gen imp]. intros H.
  apply bind_Ok in H. destruct H as (gt & w1 & H1 & H).
  apply lift_Ok in H1. destruct H1 as [_ ->].
  apply bind_Ok in H. destruct H as (it & w2 & H2 & H).
  apply lift_Ok in H2. destruct H2 as [_ ->].
  apply bind_Ok in H. destruct H as (e1 & w3 & H3 & H).
  apply bind_Ok in H. destruct H as (e2 & w4 & H4 & H).
  apply bind_Ok in H. destruct H as (e3 & w5 & H5 & H).
  apply bind_Ok in H. destruct H as (e4 & w6 & H6 & H).
  apply bind_Ok in H. destruct H as (gd & w7 & H7 & H).
  apply lift_Ok in H7. destruct H7 as [_ ->].
  apply bind_Ok in H. destruct H as (id & w8 & H8 & H).
  apply lift_Ok in H8. destruct H8 as [_ ->].
  apply ret_Ok in H. destruct H as [_ ->].
  apply generate_embeddings_Ok in H3, H4, H5, H6.
  destruct H3 as (g3 & T3), H4 as (g4 & T4), H5 as (g5 & T5), H6 as (g6 & T6).
  eexists. split.
  - rewrite T6, T5, T4, T3, <- !app_assoc. reflexivity.
  - split; [reflexivity | repeat constructor].
Qed.

Lemma steps_app (evs1 evs2 : list (event D)) :
  steps (evs1 ++ evs2) = steps evs1 ++ steps evs2.
Proof.
  induction evs1 as [|ev evs1 IH]; simpl; [reflexivity|].
  destruct (step_of ev); simpl; now rewrite IH.
Qed.

Lemma evaluate_loop_Ok (net : handle) (loader : Loader D) (dev : device)
    (range : list nat) :
  forall gscores iscores w w' s,
    evaluate_loop X net loader dev range gscores iscores w = (Ok s, w') ->
    exists evs,
      trace w' = trace w ++ evs /\
      steps evs = repeat BatchLoop (5 * length range) /\ quiet evs.
Proof.
  induction range as [|i range IH]; intros gscores iscores w w' s H; simpl in H.
  - apply ret_Ok in H. destruct H as [_ ->].
    exists []. rewrite app_nil_r. repeat split. constructor.
  - apply bind_Ok in H. destruct H as (b & w1 & H1 & H).
    apply bind_Ok in H. destruct H as ([g_dist i_dist] & w2 & H2 & H).
    apply call_env_Ok in H1. apply batch_scores_Ok in H2.
    destruct H2 as (evs2 & T2 & S2 & Q2).
    apply IH in H. destruct H as (evs3 & T3 & S3 & Q3).
    exists ((NextBatch loader i, None) :: evs2 ++ evs3). split; [|split].
    + rewrite T3, T2, H1, <- !app_assoc. reflexivity.
    + simpl steps. rewrite steps_app, S2, S3.
      replace (5 * length (i :: range))%nat with (5 + 5 * length range)%nat
        by (simpl; lia).
      reflexivity.
    + constructor; [reflexivity|]. apply Forall_app. auto.
Qed.

Lemma with_no_grad_Ok {A} (body : M D A) (w w' : world D) (a : A) :
  with_no_grad body w = (Ok a, w') ->
  exists w1, body (set_grad false w) = (Ok a, w1) /\ trace w' = trace w1.
Proof.
  unfold with_no_grad. destruct (body (set_grad false w)) as [r w1].
  intros H. injection H as -> <-. eauto.
Qed.

Lemma evaluate_Ok (dir : string) (net : handle) (loader : Loader D)
    (dev : device) (w w' : world D) (metrics : Metrics D) :
  evaluate X dir net loader dev w = (Ok metrics, w') ->
  exists evs gscores iscores,
    trace w' = trace w ++ evs ++ [(EvaluateMetrics dir gscores iscores "A" true, None)] /\
    steps evs = repeat BatchLoop (5 * num_batches X loader) /\ quiet evs.
Proof.
  unfold evaluate, evaluate_scores. intros H.
  apply bind_Ok in H. destruct H as ([gscores iscores] & w1 & H1 & H).
  apply with_no_grad_Ok in H1. destruct H1 as (w0 & H1 & T0).
  apply evaluate_loop_Ok in H1. destruct H1 as (evs & T1 & S1 & Q1).
  apply call_env_Ok in H.
  exists evs, gscores, iscores. split; [|split; [|exact Q1]].
  - rewrite H, T0, T1, <- app_assoc. reflexivity.
  - now rewrite S1, length_seq.
Qed.

(** The trace of a run of the main procedure that returns. *)
Lemma main_Ok (args : arguments) (w w' : world D) :
  main X args w = (Ok tt, w') ->
  exists (cuda : bool) loader net evs gscores iscores metrics,
    trace w' =
      trace w
      ++ [(TorchManualSeed 230, None); (CudaIsAvailable, None)]
      ++ (if cuda then [(CudaManualSeed 230, None)] else [])
      ++ [(SetLogger (log_path args), None);
          (LoggingInfo "Loading the datasets ...", None);
          (CreateDataloader (data_dir args) 64 2, None);
          (LoggingInfo "- Done.", None);
          (FocusFace 601, None);
          (LoggingInfo ("Loading parameters from " ++ pretrain_path args), None);
          (LoadCheckpoint (pretrain_path args) net, None);
          (LoggingInfo "Start evaluation ...", None)]
      ++ evs
      ++ [(EvaluateMetrics (model_dir args) gscores iscores "A" true, None);
          (SaveDictToJson metrics (save_path args), None)] /\
    steps evs = repeat BatchLoop (5 * num_batches X loader) /\ quiet evs.
Proof.
  unfold main. intros H.
  apply bind_Ok in H. destruct H as (u1 & w1 & H1 & H).
  apply bind_Ok in H. destruct H as (cuda & w2 & H2 & H).
  apply bind_Ok in H. destruct H as (dev & w3 & H3 & H).
  apply bind_Ok in H. destruct H as (u4 & w4 & H4 & H).
  apply bind_Ok in H. destruct H as (u5 & w5 & H5 & H).
  apply bind_Ok in H. destruct H as ([l test_loader] & w6 & H6 & H).
  apply bind_Ok in H. destruct H as (u7 & w7 & H7 & H).
  apply bind_Ok in H. destruct H as (net & w8 & H8 & H).
  apply bind_Ok in H. destruct H as (u9 & w9 & H9 & H).
  apply bind_Ok in H. destruct H as (u10 & w10 & H10 & H).
  apply bind_Ok in H. destruct H as (u11 & w11 & H11 & H).
  apply bind_Ok in H. destruct H as (metrics & w12 & H12 & H).
  unfold torch_manual_seed, torch_cuda_is_available, utils_set_logger,
    logging_info_, dataloader_create_dataloader, utils_load_checkpoint,
    utils_save_dict_to_json in *.
  apply call_env_Ok in H1, H2, H4, H5, H6, H7, H9, H11, H.
  apply call_net_Ok in H10. apply model_FocusFace_Ok in H8.
  apply evaluate_Ok in H12.
  destruct H12 as (evs & gscores & iscores & T12 & S12 & Q12).
  assert (T3 : trace w3
               = trace w2 ++ (if cuda then [(CudaManualSeed 230, None)] else [])).
  { destruct cuda.
    - apply bind_Ok in H3. destruct H3 as (u & w0 & H3 & Hr).
      apply ret_Ok in Hr. destruct Hr as [_ ->].
      unfold torch_cuda_manual_seed in H3. now apply call_env_Ok in H3.
    - apply ret_Ok in H3. destruct H3 as [_ ->]. now rewrite app_nil_r. }
  exists cuda, test_loader, (to_device net dev), evs, gscores, iscores, metrics.
  split; [|split; [exact S12 | exact Q12]].
  rewrite H, T12, H11, H10, H9, H8, H7, H6, H5, H4, T3, H2, H1.
  rewrite <- !app_assoc. reflexivity.
Qed.

End Returns.

(** ** What a run that returns has computed *)

Section Pipeline.
Variable D : domain.
Variable X : externals D.

Lemma fetched_app (evs1 evs2 : list (event D)) :
  fetched (evs1 ++ evs2) = fetched evs1 ++ fetched evs2.
Proof.
  induction evs1 as [|[c st] evs1 IH]; simpl; [reflexivity|].
  destruct c; simpl; now rewrite IH.
Qed.

Lemma getitem_Ok {A} (s : list A) (i : nat) (a : A) :
  getitem s i = Ok a -> nth_error s i = Some a.
Proof.
  unfold getitem. destruct (nth_error s i); intros H; [|discriminate].
  now injection H as ->.
Qed.

(** The scores [embedding_dist] returns are the pairwise similarities. *)
Lemma embedding_dist_pairwise (x1 x2 : matrix) (scores : list R) :
  embedding_dist x1 x2 = Ok scores -> pairwise_scores x1 x2 scores.
Proof.
  intros H. apply embedding_dist_loop_inv in H. simpl in H. subst scores.
  split; [now rewrite length_map, length_seq|].
  intros j Hj.
  rewrite nth_indep with (d' := row_similarity x1 x2 O)
    by (rewrite length_map, length_seq; exact Hj).
  rewrite map_nth, seq_nth by exact Hj. apply row_similarity_similarity.
Qed.

Lemma normalize_pixels_input (input : tensor) :
  normalized_input input (normalize_pixels input).
Proof.
  split; [reflexivity|]. now rewrite normalize_pixels_formula.
Qed.

(** Under [torch.no_grad()], what [generate_embeddings] returns is the
    embedding of its input. *)
Lemma generate_embeddings_Ok_embeds (net : handle) (tgt : Target D)
    (input : tensor) (w w' : world D) (embed : matrix) :
  grad_enabled w = false ->
  generate_embeddings X net tgt input w = (Ok embed, w') ->
  embeds X input tgt embed /\
  grad_enabled w' = false /\
  trace w' = trace w ++ [(Forward net (normalize_pixels input) tgt true false, None)].
Proof.
  unfold generate_embeddings. intros Hg H.
  apply bind_Ok in H. destruct H as (out & w1 & H1 & H).
  apply bind_Ok in H. destruct H as (emb & w2 & H2 & H).
  apply lift_Ok in H2. destruct H2 as [G ->].
  apply ret_Ok in H. destruct H as [-> ->].
  apply getitem_Ok in G.
  unfold net_call, call_net in H1. rewrite Hg in H1.
  destruct (forward X (nets w net) (normalize_pixels input) tgt true false
              (w_env w)) as [r [n' e']] eqn:F.
  injection H1 as -> <-. simpl. split; [|split; reflexivity].
  exists (normalize_pixels input), (nets w net), (w_env w), out, (n', e').
  split; [apply normalize_pixels_input|]. split; [exact F | exact G].
Qed.

(** A batch that is processed to the end, under [torch.no_grad()]. *)
Lemma batch_scores_Ok_scored (net : handle) (dev : device) (b : batch D)
    (w w' : world D) (s : list R * list R) :
  grad_enabled w = false ->
  batch_scores X net dev b w = (Ok s, w') ->
  batch_scored X b s /\
  grad_enabled w' = false /\
  exists evs,
    trace w' = trace w ++ evs /\
    steps evs = repeat BatchLoop 4 /\
    fetched evs = [] /\
    Forall not_metrics evs.
Proof.
  unfold batch_scores. destruct b as [gen imp]. intros Hg H.
  apply bind_Ok in H. destruct H as (gt & w1 & H1 & H).
  apply lift_Ok in H1. destruct H1 as [G1 ->].
  apply bind_Ok in H. destruct H as (it & w2 & H2 & H).
  apply lift_Ok in H2. destruct H2 as [G2 ->].
  apply bind_Ok in H. destruct H as (e1 & w3 & H3 & H).
  apply bind_Ok in H. destruct H as (e2 & w4 & H4 & H).
  apply bind_Ok in H. destruct H as (e3 & w5 & H5 & H).
  apply bind_Ok in H. destruct H as (e4 & w6 & H6 & H).
  apply bind_Ok in H. destruct H as (gd & w7 & H7 & H).
  apply lift_Ok in H7. destruct H7 as [G7 ->].
  apply bind_Ok in H. destruct H as (id & w8 & H8 & H).
  apply lift_Ok in H8. destruct H8 as [G8 ->].
  apply ret_Ok in H. destruct H as [-> ->].
  apply getitem_Ok in G1, G2.
  apply generate_embeddings_Ok_embeds in H3; [|exact Hg].
  destruct H3 as (E3 & Hg3 & T3).
  apply generate_embeddings_Ok_embeds in H4; [|exact Hg3].
  destruct H4 as (E4 & Hg4 & T4).
  apply generate_embeddings_Ok_embeds in H5; [|exact Hg4].
  destruct H5 as (E5 & Hg5 & T5).
  apply generate_embeddings_Ok_embeds in H6; [|exact Hg5].
  destruct H6 as (E6 & Hg6 & T6).
  apply embedding_dist_pairwise in G7, G8.
  split; [|split; [exact Hg6|]].
  - exists gt, it, e1, e2, e3, e4. unfold to_device in *.
    change (fst (gen, imp)) with gen. change (snd (gen, imp)) with imp.
    change (fst (gd, id)) with gd. change (snd (gd, id)) with id.
    auto 10.
  - eexists. split.
    + rewrite T6, T5, T4, T3, <- !app_assoc. reflexivity.
    + split; [reflexivity|]. split; [reflexivity|]. repeat constructor.
Qed.

(** The loop, under [torch.no_grad()]: the batches it fetched, their scores,
    and the two lists it returns. *)
Lemma evaluate_loop_Ok_scored (net : handle) (loader : Loader D) (dev : device)
    (range : list nat) :
  forall gscores iscores w w' g i,
    grad_enabled w = false ->
    evaluate_loop X net loader dev range gscores iscores w = (Ok (g, i), w') ->
    exists batches scores evs,
      Forall2 (yields X loader) range batches /\
      Forall2 (batch_scored X) batches scores /\
      g = gscores ++ concat (map fst scores) /\
      i = iscores ++ concat (map snd scores) /\
      trace w' = trace w ++ evs /\
      steps evs = repeat BatchLoop (5 * length range) /\
      fetched evs = map (pair loader) range /\
      Forall not_metrics evs.
Proof.
  induction range as [|j range IH]; intros gscores iscores w w' g i Hg H;
    simpl in H.
  - apply ret_Ok in H. destruct H as [E ->]. injection E as -> ->.
    exists [], [], []. simpl. rewrite !app_nil_r.
    repeat split; constructor.
  - apply bind_Ok in H. destruct H as (b & w1 & H1 & H).
    apply bind_Ok in H. destruct H as ([g_dist i_dist] & w2 & H2 & H).
    unfold loader_next, call_env in H1.
    destruct (next_batch X loader j (w_env w)) as [r e'] eqn:N.
    injection H1 as -> <-.
    apply batch_scores_Ok_scored in H2; [|exact Hg].
    destruct H2 as (B & Hg2 & evs2 & T2 & S2 & F2 & M2). simpl in T2.
    apply IH in H; [|exact Hg2].
    destruct H as (batches & scores & evs3 & Y & B3 & -> & -> & T3 & S3 & F3 & M3).
    exists (b :: batches), ((g_dist, i_dist) :: scores),
      ((NextBatch loader j, None) :: evs2 ++ evs3).
    split; [constructor; [exists (w_env w), e'; exact N | exact Y]|].
    split; [constructor; assumption|].
    split; [simpl; now rewrite app_assoc|].
    split; [simpl; now rewrite app_assoc|].
    split; [rewrite T3, T2; unfold log_call; simpl;
            rewrite <- !app_assoc; reflexivity|].
    split; [|split].
    + simpl steps. rewrite steps_app, S2, S3.
      replace (5 * length (j :: range))%nat with (5 + 5 * length range)%nat
        by (simpl; lia).
      reflexivity.
    + simpl. now rewrite fetched_app, F2, F3.
    + constructor; [exact I|]. apply Forall_app. auto.
Qed.

Lemma evaluate_Ok_scored (dir : string) (net : handle) (loader : Loader D)
    (dev : device) (w w' : world D) (metrics : Metrics D) :
  evaluate X dir net loader dev w = (Ok metrics, w') ->
  exists batches scores evs,
    Forall2 (yields X loader) (seq 0 (num_batches X loader)) batches /\
    Forall2 (batch_scored X) batches scores /\
    computes X dir (concat (map fst scores)) (concat (map snd scores)) metrics /\
    trace w' =
      trace w ++ evs
      ++ [(EvaluateMetrics dir (concat (map fst scores)) (concat (map snd scores))
             "A" true, None)] /\
    steps evs = repeat BatchLoop (5 * num_batches X loader) /\
    fetched evs = map (pair loader) (seq 0 (num_batches X loader)) /\
    Forall not_metrics evs.
Proof.
  unfold evaluate, evaluate_scores. intros H.
  apply bind_Ok in H. destruct H as ([gscores iscores] & w1 & H1 & H).
  apply with_no_grad_Ok in H1. destruct H1 as (w0 & H1 & T0).
  apply evaluate_loop_Ok_scored in H1; [|reflexivity].
  destruct H1 as (batches & scores & evs & Y & B & -> & -> & T1 & S1 & F1 & M1).
  simpl in *.
  unfold metrics_evaluate_metrics, call_env in H.
  destruct (evaluate_metrics X dir (concat (map fst scores))
              (concat (map snd scores)) "A" true (w_env w1)) as [r e'] eqn:C.
  injection H as -> <-.
  exists batches, scores, evs.
  split; [exact Y|]. split; [exact B|].
  split; [exists (w_env w1), e'; exact C|].
  split; [unfold log_call; simpl; rewrite T0, T1, <- app_assoc; reflexivity|].
  split; [now rewrite S1, length_seq|]. split; [exact F1 | exact M1].
Qed.

(** A run of the main procedure that returns: what it loaded, what it
    computed and the calls it made. *)
Lemma main_Ok_scored (args : arguments) (w w' : world D) :
  main X args w = (Ok tt, w') ->
  exists (cuda : bool) train test net batches scores metrics evs,
    loads X args train test /\
    Forall2 (yields X test) (seq 0 (num_batches X test)) batches /\
    Forall2 (batch_scored X) batches scores /\
    computes X (model_dir args) (concat (map fst scores))
      (concat (map snd scores)) metrics /\
    trace w' =
      trace w
      ++ ([(TorchManualSeed 230, None); (CudaIsAvailable, None)]
          ++ (if cuda then [(CudaManualSeed 230, None)] else [])
          ++ [(SetLogger (log_path args), None);
              (LoggingInfo "Loading the datasets ...", None);
              (CreateDataloader (data_dir args) 64 2, None);
              (LoggingInfo "- Done.", None);
              (FocusFace 601, None);
              (LoggingInfo ("Loading parameters from " ++ pretrain_path args), None);
              (LoadCheckpoint (pretrain_path args) net, None);
              (LoggingInfo "Start evaluation ...", None)]
          ++ evs)
      ++ [(EvaluateMetrics (model_dir args) (concat (map fst scores))
             (concat (map snd scores)) "A" true, None);
          (SaveDictToJson metrics (save_path args), None)] /\
    steps evs = repeat BatchLoop (5 * num_batches X test) /\
    fetched evs = map (pair test) (seq 0 (num_batches X test)) /\
    Forall not_metrics evs.
Proof.
  unfold main. intros H.
  apply bind_Ok in H. destruct H as (u1 & w1 & H1 & H).
  apply bind_Ok in H. destruct H as (cuda & w2 & H2 & H).
  apply bind_Ok in H. destruct H as (dev & w3 & H3 & H).
  apply bind_Ok in H. destruct H as (u4 & w4 & H4 & H).
  apply bind_Ok in H. destruct H as (u5 & w5 & H5 & H).
  apply bind_Ok in H. destruct H as ([train test] & w6 & H6 & H).
  apply bind_Ok in H. destruct H as (u7 & w7 & H7 & H).
  apply bind_Ok in H. destruct H as (net & w8 & H8 & H).
  apply bind_Ok in H. destruct H as (u9 & w9 & H9 & H).
  apply bind_Ok in H. destruct H as (u10 & w10 & H10 & H).
  apply bind_Ok in H. destruct H as (u11 & w11 & H11 & H).
  apply bind_Ok in H. destruct H as (metrics & w12 & H12 & H).
  assert (L : loads X args train test).
  { unfold dataloader_create_dataloader, call_env in H6.
    destruct (create_dataloader X (data_dir args) 64 2 (w_env w5))
      as [r e'] eqn:C.
    injection H6 as -> _. exists (w_env w5), e'. exact C. }
  unfold torch_manual_seed, torch_cuda_is_available, utils_set_logger,
    logging_info_, dataloader_create_dataloader, utils_load_checkpoint,
    utils_save_dict_to_json in *.
  apply call_env_Ok in H1, H2, H4, H5, H6, H7, H9, H11, H.
  apply call_net_Ok in H10. apply model_FocusFace_Ok in H8.
  apply evaluate_Ok_scored in H12.
  destruct H12 as (batches & scores & evs & Y & B & C & T12 & S12 & F12 & M12).
  assert (T3 : trace w3
               = trace w2 ++ (if cuda then [(CudaManualSeed 230, None)] else [])).
  { destruct cuda.
    - apply bind_Ok in H3. destruct H3 as (u & w0 & H3 & Hr).
      apply ret_Ok in Hr. destruct Hr as [_ ->].
      unfold torch_cuda_manual_seed in H3. now apply call_env_Ok in H3.
    - apply ret_Ok in H3. destruct H3 as [_ ->]. now rewrite app_nil_r. }
  exists cuda, train, test, (to_device net dev), batches, scores, metrics, evs.
  split; [exact L|]. split; [exact Y|]. split; [exact B|]. split; [exact C|].
  split; [|split; [exact S12 | split; [exact F12 | exact M12]]].
  rewrite H, T12, H11, H10, H9, H8, H7, H6, H5, H4, T3, H2, H1.
  rewrite <- !app_assoc. reflexivity.
Qed.

End Pipeline.

(** ** Exceptions *)

Section Exceptions.
Variable D : domain.
Variable X : externals D.

Lemma clean_nil {A} (r : outcome A) : clean (D := D) r [].
Proof. left. constructor. Qed.

Lemma clean_raise {A B} (e : exn) (evs : list (event D)) :
  clean (@Raise A e) evs -> clean (@Raise B e) evs.
Proof.
  intros [Hq | (pre & c & e' & -> & Hq & He)]; [now left|].
  right. exists pre, c, e'. injection He as ->. auto.
Qed.

Lemma clean_app {A B} (a : A) (r : outcome B) (evs1 evs2 : list (event D)) :
  clean (Ok a) evs1 -> clean r evs2 -> clean r (evs1 ++ evs2).
Proof.
  intros [Hq1 | (pre & c & e & _ & _ & He)]; [|discriminate].
  intros [Hq2 | (pre & c & e & -> & Hq2 & ->)].
  - left. now apply Forall_app.
  - right. exists (evs1 ++ pre), c, e.
    rewrite app_assoc. repeat split. now apply Forall_app.
Qed.

Lemma clean_call {A} (c : call D) (r : outcome A) : clean r [(c, status r)].
Proof.
  destruct r as [a|e]; simpl.
  - left. repeat constructor.
  - right. exists [], c, e. repeat split. constructor.
Qed.

Lemma quiet_not_raised (evs pre post : list (event D)) (ev : event D) (e : exn) :
  quiet evs -> evs = pre ++ ev :: post -> raised ev = Some e -> False.
Proof.
  intros Hq -> He. apply Forall_app in Hq. destruct Hq as [_ Hq].
  inversion Hq as [|? ? Hev _]. congruence.
Qed.

Lemma clean_propagated {A} (r : outcome A) (evs : list (event D)) :
  clean r evs -> propagated r evs.
Proof.
  intros Hc pre ev post e Hevs He.
  destruct Hc as [Hq | (pre' & c & e' & E & Hq & ->)].
  - exfalso. eapply quiet_not_raised; eauto.
  - rewrite Hevs in E. clear Hevs. symmetry in E.
    destruct post as [|p post].
    + apply app_inj_tail in E. destruct E as [_ <-]. simpl in He.
      injection He as ->. auto.
    + exfalso.
      destruct (@exists_last _ (p :: post)) as (post' & lst & Epost);
        [discriminate|].
      rewrite Epost in E.
      change (pre' ++ [(c, Some e')] = pre ++ ev :: post' ++ [lst]) in E.
      rewrite app_comm_cons, app_assoc in E.
      apply app_inj_tail in E. destruct E as [E _].
      eapply quiet_not_raised; eauto.
Qed.

Lemma propagates_of_clean {A} (m : M D A) :
  run_spec m (@clean D A) -> propagates m.
Proof.
  intros H. apply run_spec_weaken with (Q := @clean D A); [exact H|].
  intros r evs. apply clean_propagated.
Qed.

Lemma main_clean (args : arguments) : run_spec (main X args) (@clean D unit).
Proof.
  apply seq_main with (P := @clean D) (ok := fun _ => True); auto.
  - intros. apply clean_nil.
  - intros A B e evs. apply clean_raise.
  - intros A B a r evs1 evs2. apply clean_app.
  - intros. apply clean_call.
Qed.

Lemma evaluate_clean (dir : string) (net : handle) (loader : Loader D)
    (dev : device) :
  run_spec (evaluate X dir net loader dev) (@clean D (Metrics D)).
Proof.
  apply seq_evaluate with (P := @clean D) (ok := fun _ => True); auto.
  - intros. apply clean_nil.
  - intros A B e evs. apply clean_raise.
  - intros A B a r evs1 evs2. apply clean_app.
  - intros. apply clean_call.
Qed.

(** C6: in every run of the main procedure and in every run of [evaluate], a
    call of an external function or an operation of the script that raises
    is the last event of the run and its exception is the outcome of the run:
    nothing catches it, and no call is made after it. *)
Theorem exceptions_propagate (args : arguments) (dir : string) (net : handle)
    (loader : Loader D) (dev : device) :
  propagates (main X args) /\ propagates (evaluate X dir net loader dev).
Proof.
  split; apply propagates_of_clean; [apply main_clean | apply evaluate_clean].
Qed.

End Exceptions.

(** ** The calls of the main procedure and their order *)

Section Calls.
Variable D : domain.
Variable X : externals D.

Lemma main_calls (args : arguments) :
  all_events (fun ev => main_call X args (fst ev)) (main X args).
Proof.
  unfold all_events.
  apply seq_main
    with (P := fun A (_ : outcome A) evs =>
                 Forall (fun ev : event D => main_call X args (fst ev)) evs)
         (ok := main_call X args); auto.
  intros A B a r evs1 evs2 H1 H2. apply Forall_app. auto.
Qed.

Lemma main_call_path_ok (args : arguments) (ev : event D) :
  main_call X args (fst ev) -> path_ok args ev.
Proof.
  unfold path_ok. intros H. inversion H as [| | | | | | | | | | |net loader c Hc|];
    try exact I; try reflexivity.
  inversion Hc; exact I.
Qed.

(** C7: in every run of the main procedure the logger is set to
    [join(model_dir, "test.log")], every checkpoint is loaded from
    [join(model_dir, pretrained + ".pth.tar")] and every dict is saved to
    [join(model_dir, "test_metrics_" + pretrained + ".json")]; a run that
    returns has made each of the three calls. *)
Theorem main_paths (args : arguments) (w : world D) :
  exists evs,
    trace (snd (main X args w)) = trace w ++ evs /\
    Forall (fun ev : event D =>
              match fst ev with
              | SetLogger p => p = path_join (model_dir args) "test.log"
              | LoadCheckpoint p _ =>
                  p = path_join (model_dir args) (pretrained args ++ ".pth.tar")
              | SaveDictToJson _ p =>
                  p = path_join (model_dir args)
                        ("test_metrics_" ++ pretrained args ++ ".json")
              | _ => True
              end) evs /\
    (fst (main X args w) = Ok tt ->
     exists net metrics,
       In (SetLogger (path_join (model_dir args) "test.log"), None) evs /\
       In (LoadCheckpoint
             (path_join (model_dir args) (pretrained args ++ ".pth.tar")) net,
           None) evs /\
       In (SaveDictToJson metrics
             (path_join (model_dir args)
                ("test_metrics_" ++ pretrained args ++ ".json")),
           None) evs).
Proof.
  destruct (main_calls args w) as (evs & T & Hcalls).
  exists evs. split; [exact T|]. split.
  - revert Hcalls. apply Forall_impl. intros ev Hev.
    apply main_call_path_ok in Hev. unfold path_ok in Hev.
    destruct (fst ev); try exact I; exact Hev.
  - intros Hok.
    destruct (main X args w) as [r w'] eqn:E. simpl in *. subst r.
    apply main_Ok in E.
    destruct E as (cuda & loader & net & loop & g & i & metrics & T' & _).
    rewrite T' in T. apply app_inv_head in T. subst evs.
    exists net, metrics.
    repeat split; rewrite !in_app_iff; simpl; auto 20.
Qed.

End Calls.

(** With the default arguments the three files are [test.log],
    [last.pth.tar] and [test_metrics_last.json] in [result/base_model]. *)
Lemma main_paths_witness :
  exists evs,
    trace (snd (main Toy.ext Toy.args (Toy.init 1))) = evs /\
    Forall (fun ev : event Toy.dom =>
              match fst ev with
              | SetLogger p => p = "result/base_model/test.log"%string
              | LoadCheckpoint p _ => p = "result/base_model/last.pth.tar"%string
              | SaveDictToJson _ p =>
                  p = "result/base_model/test_metrics_last.json"%string
              | _ => True
              end) evs /\
    exists net metrics,
      In (@SetLogger Toy.dom "result/base_model/test.log", None) evs /\
      In (@LoadCheckpoint Toy.dom "result/base_model/last.pth.tar" net, None) evs /\
      In (@SaveDictToJson Toy.dom metrics "result/base_model/test_metrics_last.json",
          None) evs.
Proof.
  destruct (@main_paths Toy.dom Toy.ext Toy.args (Toy.init 1))
    as (evs & T & F & H).
  exists evs. split; [exact T|]. split; [exact F|].
  apply H. lazy. reflexivity.
Defined.

Section Order.
Variable D : domain.
Variable X : externals D.

(** *** The order of the steps *)

Lemma phase_ok_nil (lo hi : nat) : phase_ok lo hi [].
Proof. split; constructor. Qed.

Lemma StronglySorted_app (l1 l2 : list step) :
  StronglySorted step_le l1 ->
  StronglySorted step_le l2 ->
  (forall s1 s2, In s1 l1 -> In s2 l2 -> step_le s1 s2) ->
  StronglySorted step_le (l1 ++ l2).
Proof.
  intros H1 H2 H12. induction H1 as [|s l1 Hl1 IH Hs]; simpl; [exact H2|].
  constructor.
  - apply IH. intros s1 s2 Hs1. apply H12. now right.
  - apply Forall_app. split; [exact Hs|].
    apply Forall_forall. intros s2 Hs2. apply H12; [now left | exact Hs2].
Qed.

Lemma phase_ok_app (lo mid hi : nat) (l1 l2 : list step) :
  (lo <= mid <= hi)%nat ->
  phase_ok lo mid l1 -> phase_ok mid hi l2 -> phase_ok lo hi (l1 ++ l2).
Proof.
  intros Hmid [S1 B1] [S2 B2]. rewrite Forall_forall in B1, B2. split.
  - apply StronglySorted_app; auto.
    intros s1 s2 Hs1 Hs2. specialize (B1 _ Hs1). specialize (B2 _ Hs2).
    unfold step_le. lia.
  - apply Forall_app. split; apply Forall_forall; intros s Hs.
    + specialize (B1 _ Hs). lia.
    + specialize (B2 _ Hs). lia.
Qed.

Lemma phase_ok_weaken (lo mid hi : nat) (l : list step) :
  (mid <= hi)%nat -> phase_ok lo mid l -> phase_ok lo hi l.
Proof.
  intros Hmid [S B]. split; [exact S|].
  revert B. apply Forall_impl. intros s. lia.
Qed.

Lemma in_phase_bind {A B} (lo mid hi : nat) (m : M D A) (k : A -> M D B) :
  (lo <= mid <= hi)%nat ->
  in_phase lo mid m -> (forall a, in_phase mid hi (k a)) ->
  in_phase lo hi (bind m k).
Proof.
  intros Hmid Hm Hk. unfold in_phase in *.
  eapply run_spec_bind; [exact Hm | exact Hk | |].
  - intros e evs. apply phase_ok_weaken. lia.
  - intros a evs1 r evs2 H1 H2. rewrite steps_app.
    now apply phase_ok_app with (mid := mid).
Qed.

(** A call that is no step of the procedure. *)
Lemma in_phase_silent {A} (lo hi : nat) (c : call D)
    (f : env D -> outcome A * env D) :
  step_of (c, None) = None -> in_phase lo hi (call_env c f).
Proof.
  intros Hc. apply run_spec_call_env. intros r.
  unfold steps, step_of in *. simpl in *. rewrite Hc. apply phase_ok_nil.
Qed.

Lemma phase_ok_single (s : step) : phase_ok (rank s) (rank s) [s].
Proof.
  split; repeat constructor.
Qed.

Lemma in_phase_step {A} (s : step) (c : call D)
    (f : env D -> outcome A * env D) :
  step_of (c, None) = Some s -> in_phase (rank s) (rank s) (call_env c f).
Proof.
  intros Hc. apply run_spec_call_env. intros r.
  unfold steps, step_of in *. simpl in *. rewrite Hc. apply phase_ok_single.
Qed.

Lemma phase_ok_batch (evs : list (event D)) :
  Forall (fun ev => step_of ev = Some BatchLoop \/ step_of ev = None) evs ->
  phase_ok 2 2 (steps evs).
Proof.
  induction 1 as [|ev evs [Hev|Hev] _ IH]; simpl;
    [apply phase_ok_nil | | now rewrite Hev].
  rewrite Hev. change (BatchLoop :: steps evs) with ([BatchLoop] ++ steps evs).
  apply phase_ok_app with (mid := 2%nat);
    [lia | apply (phase_ok_single BatchLoop) | exact IH].
Qed.

Lemma evaluate_loop_in_phase (net : handle) (loader : Loader D) (dev : device)
    (range : list nat) (gscores iscores : list R) :
  in_phase 2 2 (evaluate_loop X net loader dev range gscores iscores).
Proof.
  unfold in_phase.
  apply run_spec_weaken
    with (Q := fun _ evs =>
                 Forall (fun ev : event D =>
                           step_of ev = Some BatchLoop \/ step_of ev = None) evs).
  - apply seq_evaluate_loop
      with (P := fun A (_ : outcome A) evs =>
                   Forall (fun ev : event D =>
                             step_of ev = Some BatchLoop \/ step_of ev = None) evs)
           (ok := fun c => step_of (c, @None exn) = Some BatchLoop \/
                           step_of (c, @None exn) = None); auto.
    + intros A B a r evs1 evs2 H1 H2. apply Forall_app. auto.
  - intros _ evs. apply phase_ok_batch.
Qed.

Lemma evaluate_in_phase (dir : string) (net : handle) (loader : Loader D)
    (dev : device) :
  in_phase 2 3 (evaluate X dir net loader dev).
Proof.
  unfold evaluate, evaluate_scores.
  apply in_phase_bind with (mid := 2%nat); [lia | |].
  - apply run_spec_with_no_grad, evaluate_loop_in_phase.
  - intros [gscores iscores].
    apply run_spec_weaken with (Q := fun _ evs => phase_ok 3 3 (steps evs)).
    + now apply (in_phase_step (s := ComputeMetrics)).
    + intros _ evs [S B]. split; [exact S|].
      revert B. apply Forall_impl. intros s. lia.
Qed.

Lemma in_phase_widen {A} (lo hi lo' hi' : nat) (m : M D A) :
  (lo' <= lo)%nat -> (hi <= hi')%nat -> in_phase lo hi m -> in_phase lo' hi' m.
Proof.
  intros Hlo Hhi Hm. unfold in_phase in *.
  apply run_spec_weaken with (1 := Hm).
  intros _ evs [S B]. split; [exact S|].
  revert B. apply Forall_impl. intros s. lia.
Qed.

Lemma main_in_phase (args : arguments) : in_phase 0 4 (main X args).
Proof.
  unfold main.
  apply in_phase_bind with (mid := 0%nat); [lia|now apply in_phase_silent|intros _].
  apply in_phase_bind with (mid := 0%nat); [lia|now apply in_phase_silent|intros cuda].
  apply in_phase_bind with (mid := 0%nat); [lia| |intros dev].
  { destruct cuda.
    - apply in_phase_bind with (mid := 0%nat); [lia|now apply in_phase_silent|].
      intros _. apply run_spec_ret, phase_ok_nil.
    - apply run_spec_ret, phase_ok_nil. }
  apply in_phase_bind with (mid := 0%nat); [lia|now apply in_phase_silent|intros _].
  apply in_phase_bind with (mid := 0%nat); [lia|now apply in_phase_silent|intros _].
  apply in_phase_bind with (mid := 0%nat);
    [lia|now apply (in_phase_step (s := LoadDataset))|intros [l test_loader]].
  apply in_phase_bind with (mid := 0%nat); [lia|now apply in_phase_silent|intros _].
  apply in_phase_bind with (mid := 1%nat); [lia| |intros net].
  { apply in_phase_widen with (lo := 1%nat) (hi := 1%nat); [lia|lia|].
    apply run_spec_model_FocusFace. intros r. apply (phase_ok_single LoadModel). }
  apply in_phase_bind with (mid := 1%nat); [lia|now apply in_phase_silent|intros _].
  apply in_phase_bind with (mid := 1%nat); [lia| |intros _].
  { apply run_spec_call_net. intros r. apply (phase_ok_single LoadModel). }
  apply in_phase_bind with (mid := 1%nat); [lia|now apply in_phase_silent|intros _].
  apply in_phase_bind with (mid := 3%nat); [lia| |intros test_metrics].
  { apply in_phase_widen with (lo := 2%nat) (hi := 3%nat); [lia|lia|].
    apply evaluate_in_phase. }
  apply in_phase_widen with (lo := 4%nat) (hi := 4%nat); [lia|lia|].
  now apply (in_phase_step (s := Serialize)).
Qed.

(** C8: the main procedure is the linear procedure of the specification.
    In every run the steps come in the order load the dataset, load the model
    and the checkpoint, loop over the batches, compute the metrics, serialise
    the results.  A run that returns has loaded the pair of loaders from
    [data_dir]; it has fetched, in order, every batch of the second of them,
    the test loader, and of no other loader; for every batch it has
    normalised the four images, computed their embeddings and the pairwise
    similarities of the normalised embeddings; it has then called
    [evaluate_metrics] once, on the concatenations of the genuine and of the
    impostor scores of the batches, and last it has saved the metrics that
    call returned to [join(model_dir, "test_metrics_" + pretrained + ".json")]. *)
Theorem main_step_order (args : arguments) (w : world D) :
  exists evs,
    trace (snd (main X args w)) = trace w ++ evs /\
    StronglySorted step_le (steps evs) /\
    (fst (main X args w) = Ok tt ->
     exists train test batches scores metrics before,
       loads X args train test /\
       Forall2 (yields X test) (seq 0 (num_batches X test)) batches /\
       Forall2 (batch_scored X) batches scores /\
       computes X (model_dir args) (concat (map fst scores))
         (concat (map snd scores)) metrics /\
       evs = before
             ++ [(EvaluateMetrics (model_dir args) (concat (map fst scores))
                    (concat (map snd scores)) "A" true, None);
                 (SaveDictToJson metrics
                    (path_join (model_dir args)
                       ("test_metrics_" ++ pretrained args ++ ".json")), None)] /\
       Forall not_metrics before /\
       fetched evs = map (pair test) (seq 0 (num_batches X test)) /\
       steps evs =
         [LoadDataset; LoadModel; LoadModel]
         ++ repeat BatchLoop (5 * num_batches X test)
         ++ [ComputeMetrics; Serialize]).
Proof.
  destruct (main_in_phase args w) as (evs & T & [S _]).
  exists evs. split; [exact T|]. split; [exact S|].
  intros Hok.
  destruct (main X args w) as [r w'] eqn:E. simpl in *. subst r.
  apply main_Ok_scored in E.
  destruct E as (cuda & train & test & net & batches & scores & metrics & loop
                 & L & Y & B & C & T' & Sl & Fl & Ml).
  rewrite T' in T. apply app_inv_head in T. subst evs.
  eexists train, test, batches, scores, metrics, _.
  split; [exact L|]. split; [exact Y|]. split; [exact B|]. split; [exact C|].
  split; [reflexivity|]. split; [|split].
  - repeat (apply Forall_app; split); try exact Ml;
      try (destruct cuda); repeat constructor.
  - rewrite !fetched_app, Fl. destruct cuda; simpl; now rewrite app_nil_r.
  - rewrite !steps_app, Sl. destruct cuda; reflexivity.
Qed.

End Order.

(** On the small instance the loaders are the training loader, of two
    batches, and the test loader, of one: the loop fetches the one batch of
    the test loader, and the metrics saved are the metrics computed from its
    scores. *)
Lemma main_step_order_witness :
  exists evs,
    trace (snd (main Toy.ext Toy.args (Toy.init 1))) = evs /\
    StronglySorted step_le (steps evs) /\
    fetched evs = [(1%nat, 0%nat)] /\
    steps evs = [LoadDataset; LoadModel; LoadModel;
                 BatchLoop; BatchLoop; BatchLoop; BatchLoop; BatchLoop;
                 ComputeMetrics; Serialize] /\
    exists scores metrics before,
      Forall2 (batch_scored Toy.ext) [Toy.a_batch] scores /\
      computes Toy.ext "result/base_model" (concat (map fst scores))
        (concat (map snd scores)) metrics /\
      evs = before
            ++ [(EvaluateMetrics "result/base_model" (concat (map fst scores))
                   (concat (map snd scores)) "A" true, None);
                (SaveDictToJson metrics "result/base_model/test_metrics_last.json",
                 None)].
Proof.
  destruct (@main_step_order Toy.dom Toy.ext Toy.args (Toy.init 1))
    as (evs & T & S & H).
  destruct H as (train & test & batches & scores & metrics & before
                 & L & Y & B & C & E & _ & F & St); [lazy; reflexivity|].
  assert (Ht : test = 1%nat).
  { destruct L as (e & e' & L). simpl in L. now injection L as _ <- _. }
  subst test. simpl in Y, F, St.
  assert (Hb : batches = [Toy.a_batch]).
  { inversion Y as [|i b r bs (e & e' & N) Hr]; subst.
    inversion Hr; subst. simpl in N. now injection N as <- _. }
  subst batches.
  exists evs. split; [exact T|]. split; [exact S|].
  split; [exact F|]. split; [exact St|].
  exists scores, metrics, before. auto.
Defined.

(** ** The score lists of [evaluate] *)

Section Aggregation.
Variable D : domain.
Variable X : externals D.

Lemma bind_assoc {A B C} (m : M D A) (f : A -> M D B) (g : B -> M D C)
    (w : world D) :
  bind (bind m f) g w = bind m (fun a => bind (f a) g) w.
Proof.
  unfold bind. destruct (m w) as [[a|e] w1]; reflexivity.
Qed.

Lemma bind_cong {A B} (m : M D A) (k1 k2 : A -> M D B) (w : world D) :
  (forall a w', k1 a w' = k2 a w') -> bind m k1 w = bind m k2 w.
Proof.
  intros H. unfold bind. destruct (m w) as [[a|e] w1]; [apply H | reflexivity].
Qed.

(** The loop extends the two lists by the scores of the batches of [range],
    batch after batch. *)
Lemma evaluate_loop_concat (net : handle) (loader : Loader D) (dev : device)
    (range : list nat) :
  forall gscores iscores w,
    evaluate_loop X net loader dev range gscores iscores w
    = bind (per_batch_scores X net loader dev range)
        (fun l => ret (gscores ++ concat (map fst l),
                       iscores ++ concat (map snd l))) w.
Proof.
  induction range as [|i range IH]; intros gscores iscores w; simpl.
  - unfold bind, ret. simpl. now rewrite !app_nil_r.
  - rewrite bind_assoc. apply bind_cong. intros b w1.
    rewrite bind_assoc. apply bind_cong. intros [g_dist i_dist] w2.
    rewrite IH, bind_assoc. apply bind_cong. intros rest w3.
    unfold bind, ret. simpl. now rewrite <- !app_assoc.
Qed.

(** C4: the two score lists [evaluate] builds are the concatenations, in the
    order in which the loader yields the batches, of the genuine and of the
    impostor score lists of the batches; the run that builds them is the
    run that computes the lists batch by batch. *)
Theorem evaluate_scores_concat (net : handle) (loader : Loader D) (dev : device)
    (w : world D) :
  evaluate_scores X net loader dev w
  = with_no_grad
      (bind (per_batch_scores X net loader dev (seq 0 (num_batches X loader)))
         (fun l => ret (concat_scores l))) w.
Proof.
  unfold evaluate_scores, with_no_grad.
  now rewrite evaluate_loop_concat.
Qed.

End Aggregation.

(** ** The network during [evaluate] *)

Section Frame.
Variable D : domain.
Variable X : externals D.
Hypothesis stateless : stateless_forward X.

Lemma keeps_ret {A} (a : A) : keeps_networks (ret (D := D) a).
Proof.
  intros w Hg. simpl. repeat split; auto.
  exists []. now rewrite app_nil_r.
Qed.

Lemma keeps_lift {A} (o : outcome A) : keeps_networks (lift (D := D) o).
Proof.
  intros w Hg. unfold lift. destruct o as [a|e]; simpl; repeat split; auto.
  - exists []. now rewrite app_nil_r.
  - eexists. split; [reflexivity|]. repeat constructor.
Qed.

Lemma keeps_bind {A B} (m : M D A) (k : A -> M D B) :
  keeps_networks m -> (forall a, keeps_networks (k a)) ->
  keeps_networks (bind m k).
Proof.
  intros Hm Hk w Hg. unfold bind.
  destruct (Hm w Hg) as (G1 & N1 & evs1 & T1 & F1).
  destruct (m w) as [[a|e] w1]; simpl in *.
  - destruct (Hk a w1 G1) as (G2 & N2 & evs2 & T2 & F2).
    split; [exact G2|]. split.
    + intros h. now rewrite N2, N1.
    + exists (evs1 ++ evs2). rewrite T2, T1, app_assoc.
      split; [reflexivity | now apply Forall_app].
  - eauto 6.
Qed.

Lemma keeps_call_env {A} (c : call D) (f : env D -> outcome A * env D) :
  forward_no_grad (c, None) -> keeps_networks (call_env c f).
Proof.
  intros Hc w Hg. unfold call_env. destruct (f (w_env w)) as [r e']. simpl.
  repeat split; auto.
  eexists. split; [reflexivity|]. repeat constructor. exact Hc.
Qed.

Lemma update_net_same (h h' : handle) (s : handle -> NetState D) :
  update_net h (s h) s h' = s h'.
Proof.
  unfold update_net. destruct (Nat.eqb_spec h' h); congruence.
Qed.

(** An inference forward pass with the gradient mode off. *)
Lemma keeps_net_call (net : handle) (img : tensor) (tgt : Target D) :
  keeps_networks (net_call X net img tgt true).
Proof.
  intros w Hg. unfold net_call, call_net. rewrite Hg.
  pose proof (stateless (nets w net) img tgt (w_env w)) as Hn.
  destruct (forward X (nets w net) img tgt true false (w_env w))
    as [r [n' e']]. simpl in *. subst n'.
  split; [reflexivity|]. split; [intros h; apply update_net_same|].
  eexists. split; [reflexivity|]. repeat constructor.
Qed.

Lemma keeps_generate_embeddings (net : handle) (tgt : Target D) (input : tensor) :
  keeps_networks (generate_embeddings X net tgt input).
Proof.
  unfold generate_embeddings.
  apply keeps_bind; [apply keeps_net_call|intros out].
  apply keeps_bind; [apply keeps_lift|intros embed; apply keeps_ret].
Qed.

Lemma keeps_batch_scores (net : handle) (dev : device) (b : batch D) :
  keeps_networks (batch_scores X net dev b).
Proof.
  unfold batch_scores. destruct b as [gen imp].
  repeat first
    [ apply keeps_ret
    | apply keeps_lift
    | apply keeps_generate_embeddings
    | apply keeps_bind; [|intros] ].
Qed.

Lemma keeps_evaluate_loop (net : handle) (loader : Loader D) (dev : device)
    (range : list nat) :
  forall gscores iscores,
    keeps_networks (evaluate_loop X net loader dev range gscores iscores).
Proof.
  induction range as [|i range IH]; intros gscores iscores; simpl.
  - apply keeps_ret.
  - apply keeps_bind; [now apply keeps_call_env|intros b].
    apply keeps_bind; [apply keeps_batch_scores|intros [g_dist i_dist]].
    apply IH.
Qed.

End Frame.

Section NetworkFrame.
Variable D : domain.
Variable X : externals D.
Variable net : handle.

Lemma frames_ret {A} (a : A) : frames_network net (ret (D := D) a).
Proof.
  intros w Hg. simpl. repeat split; auto.
  exists []. now rewrite app_nil_r.
Qed.

Lemma frames_lift {A} (o : outcome A) : frames_network net (lift (D := D) o).
Proof.
  intros w Hg. unfold lift. destruct o as [a|e]; simpl; repeat split; auto.
  - exists []. now rewrite app_nil_r.
  - eexists. split; [reflexivity|]. repeat constructor.
Qed.

Lemma frames_bind {A B} (m : M D A) (k : A -> M D B) :
  frames_network net m -> (forall a, frames_network net (k a)) ->
  frames_network net (bind m k).
Proof.
  intros Hm Hk w Hg. unfold bind.
  destruct (Hm w Hg) as (G1 & N1 & evs1 & T1 & F1).
  destruct (m w) as [[a|e] w1]; simpl in *.
  - destruct (Hk a w1 G1) as (G2 & N2 & evs2 & T2 & F2).
    split; [exact G2|]. split.
    + intros h Hh. now rewrite N2, N1.
    + exists (evs1 ++ evs2). rewrite T2, T1, app_assoc.
      split; [reflexivity | now apply Forall_app].
  - eauto 6.
Qed.

Lemma frames_call_env {A} (c : call D) (f : env D -> outcome A * env D) :
  inference_pass net (c, None) -> frames_network net (call_env c f).
Proof.
  intros Hc w Hg. unfold call_env. destruct (f (w_env w)) as [r e']. simpl.
  repeat split; auto.
  eexists. split; [reflexivity|]. repeat constructor. exact Hc.
Qed.

(** A forward pass on [net] changes no other network. *)
Lemma frames_net_call (img : tensor) (tgt : Target D) :
  frames_network net (net_call X net img tgt true).
Proof.
  intros w Hg. unfold net_call, call_net. rewrite Hg.
  destruct (forward X (nets w net) img tgt true false (w_env w))
    as [r [n' e']]. simpl.
  split; [reflexivity|]. split.
  - intros h Hh. unfold update_net.
    destruct (Nat.eqb_spec h net); [contradiction | reflexivity].
  - eexists. split; [reflexivity|]. repeat constructor.
Qed.

Lemma frames_generate_embeddings (tgt : Target D) (input : tensor) :
  frames_network net (generate_embeddings X net tgt input).
Proof.
  unfold generate_embeddings.
  apply frames_bind; [apply frames_net_call|intros out].
  apply frames_bind; [apply frames_lift|intros embed; apply frames_ret].
Qed.

Lemma frames_batch_scores (dev : device) (b : batch D) :
  frames_network net (batch_scores X net dev b).
Proof.
  unfold batch_scores. destruct b as [gen imp].
  repeat first
    [ apply frames_ret
    | apply frames_lift
    | apply frames_generate_embeddings
    | apply frames_bind; [|intros] ].
Qed.

Lemma frames_evaluate_loop (loader : Loader D) (dev : device) (range : list nat) :
  forall gscores iscores,
    frames_network net (evaluate_loop X net loader dev range gscores iscores).
Proof.
  induction range as [|i range IH]; intros gscores iscores; simpl.
  - apply frames_ret.
  - apply frames_bind; [now apply frames_call_env|intros b].
    apply frames_bind; [apply frames_batch_scores|intros [g_dist i_dist]].
    apply IH.
Qed.

(** C10, amended: [evaluate] makes no update of its own.  Every call it
    makes on a network is a forward pass on its network, in inference mode
    and with the gradient mode off; it builds no network and loads no
    checkpoint; every other network is after [evaluate] as it was before, for
    every loader.  Its own network is changed by nothing but these forward
    passes: when a forward pass in inference mode with the gradient mode off
    leaves the network as it found it, the state of the network after
    [evaluate] is its state before. *)
Theorem evaluate_network_frame (dir : string) (loader : Loader D) (dev : device)
    (w : world D) :
  (forall h, h <> net ->
     nets (snd (evaluate X dir net loader dev w)) h = nets w h) /\
  (exists evs,
     trace (snd (evaluate X dir net loader dev w)) = trace w ++ evs /\
     Forall (fun ev : event D =>
               match fst ev with
               | Forward h _ _ inference grad =>
                   h = net /\ inference = true /\ grad = false
               | LoadCheckpoint _ _ | FocusFace _ => False
               | _ => True
               end) evs) /\
  ((forall n img tgt e, fst (snd (forward X n img tgt true false e)) = n) ->
   nets (snd (evaluate X dir net loader dev w)) net = nets w net).
Proof.
  assert (Hnet : (forall n img tgt e,
                    fst (snd (forward X n img tgt true false e)) = n) ->
                 nets (snd (evaluate_loop X net loader dev
                              (seq 0 (num_batches X loader)) [] []
                              (set_grad false w))) net = nets w net).
  { intros Hs.
    destruct (@keeps_evaluate_loop D X Hs net loader dev
                (seq 0 (num_batches X loader)) [] [] (set_grad false w) eq_refl)
      as (_ & N & _).
    apply N. }
  unfold evaluate, evaluate_scores, bind, with_no_grad.
  destruct (@frames_evaluate_loop loader dev
              (seq 0 (num_batches X loader)) [] [] (set_grad false w) eq_refl)
    as (_ & N & evs & T & F).
  destruct (evaluate_loop X net loader dev (seq 0 (num_batches X loader)) [] []
              (set_grad false w)) as [[[gscores iscores]|e] w1]; simpl in *.
  - unfold metrics_evaluate_metrics, call_env. simpl.
    destruct (evaluate_metrics X dir gscores iscores "A" true (w_env w1))
      as [r e']. simpl.
    split; [exact N|]. split; [|exact Hnet].
    exists (evs ++ [(EvaluateMetrics dir gscores iscores "A" true, status r)]).
    unfold log_call. simpl. rewrite T, app_assoc.
    split; [reflexivity|]. apply Forall_app. split; [exact F|].
    repeat constructor.
  - split; [exact N|]. split; [eauto | exact Hnet].
Qed.

End NetworkFrame.

(** On a network that counts its forward passes, [evaluate] returns and
    leaves the network in another state than it found it: four passes on the
    one batch of the loader. *)
Lemma evaluate_changes_network :
  fst (evaluate ToyStateful.ext "result/base_model" 0%nat 1%nat Cpu (Toy.init 1))
  = Ok 2%nat /\
  nets (Toy.init 1) 0%nat = 0%nat /\
  nets (snd (evaluate ToyStateful.ext "result/base_model" 0%nat 1%nat Cpu
               (Toy.init 1))) 0%nat = 4%nat /\
  nets (snd (evaluate ToyStateful.ext "result/base_model" 0%nat 1%nat Cpu
               (Toy.init 1))) 0%nat
  <> nets (Toy.init 1) 0%nat.
Proof.
  assert (E : nets (snd (evaluate ToyStateful.ext "result/base_model" 0%nat 1%nat
                           Cpu (Toy.init 1))) 0%nat = 4%nat)
    by (lazy; reflexivity).
  split; [lazy; reflexivity|]. split; [reflexivity|]. split; [exact E|].
  rewrite E. simpl. discriminate.
Qed.

(** ** What a run of [evaluate] depends on *)

Section Reproducibility.
Variable D : domain.
Variable X : externals D.
Variable net : handle.

Lemma same_ret {A} (a : A) : same_runs net (ret (D := D) a).
Proof.
  intros w1 w2 Hin Hg. simpl. repeat split; try apply Hin; auto.
  exists []. now rewrite !app_nil_r.
Qed.

Lemma same_lift {A} (o : outcome A) : same_runs net (lift (D := D) o).
Proof.
  intros w1 w2 Hin Hg. unfold lift.
  destruct o as [a|e]; simpl; repeat split; try apply Hin; auto.
  - exists []. now rewrite !app_nil_r.
  - eexists. split; reflexivity.
Qed.

Lemma same_bind {A B} (m : M D A) (k : A -> M D B) :
  same_runs net m -> (forall a, same_runs net (k a)) ->
  same_runs net (bind m k).
Proof.
  intros Hm Hk w1 w2 Hin Hg. unfold bind.
  destruct (Hm w1 w2 Hin Hg) as (R1 & I1 & G1 & evs1 & T1 & T2).
  destruct (m w1) as [r1 w1'], (m w2) as [r2 w2']. simpl in *. subst r2.
  destruct r1 as [a|e]; simpl.
  - destruct (Hk a w1' w2' I1 G1) as (R2 & I2 & G2 & evs2 & U1 & U2).
    repeat split; try apply I2; auto.
    exists (evs1 ++ evs2). rewrite U1, U2, T1, T2, !app_assoc. auto.
  - repeat split; try apply I1; eauto.
Qed.

Lemma same_call_env {A} (c : call D) (f : env D -> outcome A * env D) :
  same_runs net (call_env c f).
Proof.
  intros w1 w2 [He Hn] Hg. unfold call_env, log_call. rewrite He.
  destruct (f (w_env w2)) as [r e']. simpl.
  repeat split; auto. eauto.
Qed.

(** A forward pass on the network [net]. *)
Lemma same_net_call (img : tensor) (tgt : Target D) (inference : bool) :
  same_runs net (net_call X net img tgt inference).
Proof.
  intros w1 w2 [He Hn] Hg. unfold net_call, call_net, log_call.
  rewrite He, Hn, Hg.
  destruct (forward X (nets w2 net) img tgt inference (grad_enabled w2)
              (w_env w2)) as [r [n' e']]. simpl.
  split; [reflexivity|]. split; [|split; [reflexivity | eauto]].
  split; simpl; [reflexivity|].
  unfold update_net. now rewrite Nat.eqb_refl.
Qed.

Lemma same_generate_embeddings (tgt : Target D) (input : tensor) :
  same_runs net (generate_embeddings X net tgt input).
Proof.
  unfold generate_embeddings.
  apply same_bind; [apply same_net_call|intros out].
  apply same_bind; [apply same_lift|intros embed; apply same_ret].
Qed.

Lemma same_batch_scores (dev : device) (b : batch D) :
  same_runs net (batch_scores X net dev b).
Proof.
  unfold batch_scores. destruct b as [gen imp].
  repeat first
    [ apply same_ret
    | apply same_lift
    | apply same_generate_embeddings
    | apply same_bind; [|intros] ].
Qed.

Lemma same_evaluate_loop (loader : Loader D) (dev : device) (range : list nat) :
  forall gscores iscores,
    same_runs net (evaluate_loop X net loader dev range gscores iscores).
Proof.
  induction range as [|i range IH]; intros gscores iscores; simpl.
  - apply same_ret.
  - apply same_bind; [apply same_call_env|intros b].
    apply same_bind; [apply same_batch_scores|intros [g_dist i_dist]].
    apply IH.
Qed.

(** The block under [torch.no_grad()] does not depend on the gradient mode
    it is entered with. *)
Lemma same_evaluate_scores (loader : Loader D) (dev : device) (w1 w2 : world D) :
  same_inputs net w1 w2 ->
  fst (evaluate_scores X net loader dev w1)
  = fst (evaluate_scores X net loader dev w2) /\
  same_inputs net (snd (evaluate_scores X net loader dev w1))
                  (snd (evaluate_scores X net loader dev w2)) /\
  exists evs,
    trace (snd (evaluate_scores X net loader dev w1)) = trace w1 ++ evs /\
    trace (snd (evaluate_scores X net loader dev w2)) = trace w2 ++ evs.
Proof.
  intros Hin. unfold evaluate_scores, with_no_grad.
  destruct (@same_evaluate_loop loader dev (seq 0 (num_batches X loader)) [] []
              (set_grad false w1) (set_grad false w2) Hin eq_refl)
    as (R & I & _ & evs & T1 & T2).
  destruct (evaluate_loop X net loader dev (seq 0 (num_batches X loader)) [] []
              (set_grad false w1)) as [r1 w1'].
  destruct (evaluate_loop X net loader dev (seq 0 (num_batches X loader)) [] []
              (set_grad false w2)) as [r2 w2'].
  simpl in *. repeat split; try apply I; eauto.
Qed.

(** [evaluate] reads of the world only the environment and the state of its
    network: from two worlds that agree on these, whatever their gradient
    mode, their other networks and their earlier calls, it has the same
    outcome and makes the same calls. *)
Lemma evaluate_same_runs (dir : string) (loader : Loader D) (dev : device)
    (w1 w2 : world D) :
  same_inputs net w1 w2 ->
  fst (evaluate_scores X net loader dev w1)
  = fst (evaluate_scores X net loader dev w2) /\
  fst (evaluate X dir net loader dev w1)
  = fst (evaluate X dir net loader dev w2) /\
  exists evs,
    trace (snd (evaluate X dir net loader dev w1)) = trace w1 ++ evs /\
    trace (snd (evaluate X dir net loader dev w2)) = trace w2 ++ evs.
Proof.
  intros Hin.
  destruct (same_evaluate_scores loader dev Hin) as (R & [Ie In'] & evs & T1 & T2).
  split; [exact R|].
  unfold evaluate, bind.
  destruct (evaluate_scores X net loader dev w1) as [r1 w1'].
  destruct (evaluate_scores X net loader dev w2) as [r2 w2'].
  simpl in *. subst r2.
  destruct r1 as [[gscores iscores]|e]; simpl; [|eauto].
  unfold metrics_evaluate_metrics, call_env, log_call. rewrite Ie.
  destruct (evaluate_metrics X dir gscores iscores "A" true (w_env w2'))
    as [r e']. simpl.
  split; [reflexivity|].
  exists (evs ++ [(EvaluateMetrics dir gscores iscores "A" true, status r)]).
  rewrite T1, T2, !app_assoc. auto.
Qed.

(** The main procedure seeds the generators before anything else: its run
    does not depend on the state they were in. *)
Lemma main_seed_independent (args : arguments) (w1 w2 : world D) :
  same_up_to_rng w1 w2 -> main X args w1 = main X args w2.
Proof.
  intros (Hos & Hg & Hn & Hh & Ht).
  unfold main. unfold bind at 1. unfold bind at 2.
  assert (E : torch_manual_seed X 230 w1 = torch_manual_seed X 230 w2).
  { unfold torch_manual_seed, call_env, log_call. simpl.
    now rewrite Hos, Hg, Hn, Hh, Ht. }
  now rewrite E.
Qed.

End Reproducibility.

(** ** The script on the small instance *)

Section Examples.
Local Open Scope string_scope.

Example default_log_path :
  log_path Toy.args = "result/base_model/test.log".
Proof. reflexivity. Qed.

Example default_pretrain_path :
  pretrain_path Toy.args = "result/base_model/last.pth.tar".
Proof. reflexivity. Qed.

Example default_save_path :
  save_path Toy.args = "result/base_model/test_metrics_last.json".
Proof. reflexivity. Qed.

Example path_join_trailing_sep : path_join "result/" "test.log" = "result/test.log".
Proof. reflexivity. Qed.

Example path_join_absolute : path_join "result" "/tmp/test.log" = "/tmp/test.log".
Proof. reflexivity. Qed.

Example toy_main_returns : fst (main Toy.ext Toy.args (Toy.init 1)) = Ok tt.
Proof. lazy. reflexivity. Qed.

Example toy_main_steps :
  steps (trace (snd (main Toy.ext Toy.args (Toy.init 1))))
  = [LoadDataset; LoadModel; LoadModel;
     BatchLoop; BatchLoop; BatchLoop; BatchLoop; BatchLoop;
     ComputeMetrics; Serialize].
Proof. lazy. reflexivity. Qed.

(** One batch of one image pair each: one genuine and one impostor score. *)
Example toy_main_scores :
  exists g i,
    scores_of (trace (snd (main Toy.ext Toy.args (Toy.init 1)))) = [([g], [i])].
Proof. eexists. eexists. lazy. reflexivity. Qed.

(** The checkpoint is loaded into the network before [evaluate] runs. *)
Example toy_main_network :
  nets (snd (main Toy.ext Toy.args (Toy.init 1))) 0%nat = 1%nat.
Proof. lazy. reflexivity. Qed.

(** A checkpoint that is not there: the run ends at the call that raised. *)
Example toy_missing_checkpoint :
  let run := main (Toy.ext_with (Raise (LibraryError "FileNotFoundError")) Toy.a_batch)
               Toy.args (Toy.init 1) in
  fst run = Raise (LibraryError "FileNotFoundError") /\
  steps (trace (snd run)) = [LoadDataset; LoadModel; LoadModel] /\
  last (trace (snd run)) (LibraryOp, None)
  = (LoadCheckpoint "result/base_model/last.pth.tar" 0%nat,
     Some (LibraryError "FileNotFoundError")).
Proof. lazy. auto. Qed.

(** Embeddings of different widths: [torch.cdist] raises inside
    [embedding_dist], after the four forward passes of the batch, and no
    metrics are computed. *)
Example toy_shape_mismatch :
  let run := main (Toy.ext_with (Ok tt) Toy.odd_batch) Toy.args (Toy.init 1) in
  fst run = Raise RuntimeError /\
  steps (trace (snd run))
  = [LoadDataset; LoadModel; LoadModel;
     BatchLoop; BatchLoop; BatchLoop; BatchLoop; BatchLoop] /\
  last (trace (snd run)) (LibraryOp, None) = (LibraryOp, Some RuntimeError).
Proof. lazy. auto. Qed.

(** Two rows without elements are at distance 0 and score 1; rows of
    different widths cannot be compared, and a second batch that is too short
    has no row to compare with, whatever the width. *)
Example embedding_dist_empty_row :
  embedding_dist [[]] [[]] = Ok [1].
Proof.
  assert (E : l2_dist [] [] = 0) by (unfold l2_dist; simpl; apply sqrt_0).
  unfold embedding_dist. simpl. unfold pair_similarity. simpl.
  unfold cdist. simpl. rewrite E. do 2 f_equal. lra.
Qed.

Example embedding_dist_empty_rows_short_second :
  embedding_dist [[]; []] [[]] = Raise IndexError.
Proof. lazy. reflexivity. Qed.

Example embedding_dist_width_mismatch :
  embedding_dist [[1; 2]] [[1]] = Raise RuntimeError.
Proof. reflexivity. Qed.

Example embedding_dist_short_second :
  embedding_dist [[1]; [2]] [[1]] = Raise IndexError.
Proof. lazy. reflexivity. Qed.

End Examples.

(** * Further properties of the code *)

(** ** [embedding_dist]: which rows it reads, when it fails *)

Section EmbeddingDistFacts.
Local Open Scope outcome_scope.

Lemma embedding_dist_loop_app (embed1 embed2 : matrix) (r1 r2 : list nat) :
  forall embeds,
    embedding_dist_loop embed1 embed2 (r1 ++ r2) embeds
    = obind (embedding_dist_loop embed1 embed2 r1 embeds)
        (embedding_dist_loop embed1 embed2 r2).
Proof.
  induction r1 as [|i r1 IH]; intros embeds; simpl; [reflexivity|].
  destruct (pair_similarity embed1 embed2 i) as [s|e]; simpl; [apply IH|reflexivity].
Qed.

Lemma embedding_dist_loop_acc (embed1 embed2 : matrix) (range : list nat) :
  forall embeds,
    embedding_dist_loop embed1 embed2 range embeds
    = obind (embedding_dist_loop embed1 embed2 range [])
        (fun scores => Ok (embeds ++ scores)).
Proof.
  induction range as [|i range IH]; intros embeds; simpl.
  - now rewrite app_nil_r.
  - destruct (pair_similarity embed1 embed2 i) as [s|e]; simpl; [|reflexivity].
    rewrite IH. rewrite (IH [s]).
    destruct (embedding_dist_loop embed1 embed2 range []) as [scores|e]; simpl;
      [|reflexivity].
    now rewrite <- app_assoc.
Qed.

(** Two loops whose iterations agree index by index. *)
Lemma embedding_dist_loop_map_ext (a1 a2 b1 b2 : matrix) (g : nat -> nat)
    (range : list nat) :
  (forall i, In i range -> pair_similarity a1 a2 (g i) = pair_similarity b1 b2 i) ->
  forall embeds,
    embedding_dist_loop a1 a2 (map g range) embeds
    = embedding_dist_loop b1 b2 range embeds.
Proof.
  induction range as [|i range IH]; intros H embeds; simpl; [reflexivity|].
  rewrite (H i (or_introl eq_refl)).
  destruct (pair_similarity b1 b2 i) as [s|e]; simpl; [|reflexivity].
  apply IH. intros j Hj. apply H. now right.
Qed.

Lemma embedding_dist_loop_ext (a1 a2 b1 b2 : matrix) (range : list nat) :
  (forall i, In i range -> pair_similarity a1 a2 i = pair_similarity b1 b2 i) ->
  forall embeds,
    embedding_dist_loop a1 a2 range embeds
    = embedding_dist_loop b1 b2 range embeds.
Proof.
  intros H embeds.
  rewrite <- (map_id range) at 1.
  now apply embedding_dist_loop_map_ext.
Qed.

Lemma seq_add_map (k n : nat) : seq k n = map (Nat.add k) (seq 0 n).
Proof.
  revert k. induction n as [|n IH]; intros k; simpl; [reflexivity|].
  rewrite Nat.add_0_r. f_equal.
  rewrite <- (seq_shift n 0), map_map, (IH (S k)).
  apply map_ext. intros i. lia.
Qed.

(** X1: [embedding_dist] reads the rows of [embed2] only at the indices of
    [embed1]: rows of [embed2] beyond [embed1.shape[0]] change nothing, neither
    the scores nor a failure. *)
Theorem embedding_dist_ignores_extra_rows (embed1 embed2 : matrix) :
  embedding_dist embed1 embed2
  = embedding_dist embed1 (firstn (length embed1) embed2).
Proof.
  unfold embedding_dist. apply embedding_dist_loop_ext.
  intros i Hi. apply in_seq in Hi.
  unfold pair_similarity, getitem. rewrite nth_error_firstn.
  destruct (Nat.ltb_spec i (length embed1)); [reflexivity | lia].
Qed.

(** What [pair_similarity] needs to return. *)
Lemma pair_similarity_Ok_rows (embed1 embed2 : matrix) (i : nat) (s : R) :
  pair_similarity embed1 embed2 i = Ok s ->
  exists a b,
    nth_error embed1 i = Some a /\ nth_error embed2 i = Some b /\
    length a = length b.
Proof.
  unfold pair_similarity, getitem.
  destruct (nth_error embed1 i) as [a|]; simpl; [|discriminate].
  destruct (nth_error embed2 i) as [b|]; simpl; [|discriminate].
  unfold cdist. simpl.
  destruct (Nat.eqb_spec (length a) (length b)) as [E|E]; simpl; [|discriminate].
  intros _. exists a, b. auto.
Qed.

Lemma embedding_dist_loop_Ok_all (embed1 embed2 : matrix) (range : list nat) :
  forall embeds scores,
    embedding_dist_loop embed1 embed2 range embeds = Ok scores ->
    forall i, In i range -> exists s, pair_similarity embed1 embed2 i = Ok s.
Proof.
  induction range as [|j range IH]; intros embeds scores H i Hi; simpl in *.
  - destruct Hi.
  - destruct (pair_similarity embed1 embed2 j) as [s|e] eqn:E; simpl in H;
      [|discriminate].
    destruct Hi as [<-|Hi]; [eauto|]. eapply IH; eauto.
Qed.

(** X2: [embedding_dist] returns exactly when every row of [embed1] has a
    row of [embed2] at its index and the two rows have the same width, rows
    without elements included; otherwise it raises. *)
Theorem embedding_dist_returns_iff (embed1 embed2 : matrix) :
  (exists scores, embedding_dist embed1 embed2 = Ok scores) <->
  (forall i, (i < length embed1)%nat ->
     exists a b,
       nth_error embed1 i = Some a /\ nth_error embed2 i = Some b /\
       length a = length b).
Proof.
  split.
  - intros (scores & H) i Hi. unfold embedding_dist in H.
    destruct (embedding_dist_loop_Ok_all _ _ _ _ H i) as (s & Hs).
    + apply in_seq. lia.
    + eapply pair_similarity_Ok_rows; eauto.
  - intros H. eexists. now apply embedding_dist_paired.
Qed.

End EmbeddingDistFacts.

Section EmbeddingDistErrors.
Local Open Scope outcome_scope.

Lemma pair_similarity_missing_row (embed1 embed2 : matrix) (i : nat) (a : vector) :
  nth_error embed1 i = Some a ->
  nth_error embed2 i = None ->
  pair_similarity embed1 embed2 i = Raise IndexError.
Proof.
  intros H1 H2. unfold pair_similarity, getitem. rewrite H1. simpl.
  now rewrite H2.
Qed.

(** X3: when [embed2] has fewer rows than [embed1], rows of one width on
    both sides, [embedding_dist] raises [IndexError]: it computes the scores
    of the rows [embed2] has and fails at the first index without one; no
    list of scores is returned. *)
Theorem embedding_dist_short_second_batch (embed1 embed2 : matrix) (k : nat) :
  Forall (width k) embed1 ->
  Forall (width k) embed2 ->
  (length embed2 < length embed1)%nat ->
  embedding_dist embed1 embed2 = Raise IndexError.
Proof.
  intros H1 H2 Hlen. unfold embedding_dist.
  replace (length embed1)
    with (length embed2 + S (length embed1 - S (length embed2)))%nat by lia.
  rewrite seq_app, embedding_dist_loop_app.
  rewrite embedding_dist_loop_map with (f := row_similarity embed1 embed2).
  - simpl.
    rewrite Forall_forall in H1.
    assert (Hi : (length embed2 < length embed1)%nat) by exact Hlen.
    pose proof (nth_error_nth' embed1 [] Hi) as E1.
    pose proof (H1 _ (nth_In embed1 [] Hi)) as W1. unfold width in W1.
    rewrite (@pair_similarity_missing_row embed1 embed2 (length embed2)
               (nth (length embed2) embed1 [])); auto.
    apply nth_error_None. lia.
  - intros i Hi. apply in_seq in Hi.
    rewrite Forall_forall in H1, H2.
    assert (Hi1 : (i < length embed1)%nat) by lia.
    assert (Hi2 : (i < length embed2)%nat) by lia.
    pose proof (H1 _ (nth_In embed1 [] Hi1)) as W1.
    pose proof (H2 _ (nth_In embed2 [] Hi2)) as W2. unfold width in W1, W2.
    unfold row_similarity.
    apply pair_similarity_rows; auto using nth_error_nth'.
    congruence.
Qed.

Lemma embedding_dist_short_second_batch_witness :
  embedding_dist [[1; 2]; [3; 4]; [5; 6]] [[1; 2]] = Raise IndexError.
Proof.
  apply (@embedding_dist_short_second_batch
           [[1; 2]; [3; 4]; [5; 6]] [[1; 2]] 2);
    [repeat constructor | repeat constructor | simpl; lia].
Defined.

(** X4: two non-empty batches whose rows have different widths make
    [embedding_dist] raise [RuntimeError], the refusal of [torch.cdist], at
    the first pair of rows. *)
Theorem embedding_dist_width_conflict (embed1 embed2 : matrix) (n k1 k2 : nat) :
  (0 < n)%nat ->
  embedding_batch n k1 embed1 ->
  embedding_batch n k2 embed2 ->
  k1 <> k2 ->
  embedding_dist embed1 embed2 = Raise RuntimeError.
Proof.
  intros Hn (L1 & K1 & W1) (L2 & K2 & W2) Hk.
  destruct embed1 as [|a embed1]; [simpl in L1; lia|].
  destruct embed2 as [|b embed2]; [simpl in L2; lia|].
  apply Forall_inv in W1, W2. unfold width in W1, W2.
  unfold embedding_dist. simpl. unfold pair_similarity, getitem. simpl.
  unfold cdist. simpl.
  destruct (Nat.eqb_spec (length a) (length b)) as [E|E]; [|reflexivity].
  exfalso. apply Hk. now rewrite <- W1, <- W2.
Qed.

Lemma embedding_dist_width_conflict_witness :
  embedding_dist [[1; 2]; [3; 4]] [[1; 2; 3]; [4; 5; 6]] = Raise RuntimeError.
Proof.
  apply (@embedding_dist_width_conflict
           [[1; 2]; [3; 4]] [[1; 2; 3]; [4; 5; 6]] 2 2 3);
    [lia | | | lia];
    (split; [reflexivity | split; [lia | repeat constructor]]).
Defined.

End EmbeddingDistErrors.

(** ** [embedding_dist]: the scores as a similarity *)

Section Similarity.
Local Open Scope outcome_scope.

Lemma sum_sq_diff_sym (a b : vector) :
  sum_list (map (fun p => (fst p - snd p) * (fst p - snd p)) (combine a b))
  = sum_list (map (fun p => (fst p - snd p) * (fst p - snd p)) (combine b a)).
Proof.
  revert b. induction a as [|x a IH]; intros [|y b]; simpl; try reflexivity.
  rewrite (IH b). lra.
Qed.

Lemma l2_dist_sym (a b : vector) : l2_dist a b = l2_dist b a.
Proof. unfold l2_dist. now rewrite sum_sq_diff_sym. Qed.

Lemma sum_sq_diff_self (a : vector) :
  sum_list (map (fun p => (fst p - snd p) * (fst p - snd p)) (combine a a)) = 0.
Proof.
  induction a as [|x a IH]; simpl; [reflexivity|]. rewrite IH. lra.
Qed.

Lemma l2_dist_self (a : vector) : l2_dist a a = 0.
Proof. unfold l2_dist. rewrite sum_sq_diff_self. apply sqrt_0. Qed.

Lemma sum_sq_diff_zero (a b : vector) :
  length a = length b ->
  sum_list (map (fun p => (fst p - snd p) * (fst p - snd p)) (combine a b)) = 0 ->
  a = b.
Proof.
  revert b. induction a as [|x a IH]; intros [|y b] Hlen H; simpl in *;
    try discriminate; [reflexivity|].
  assert (Hrest : 0 <= sum_list (map (fun p => (fst p - snd p) * (fst p - snd p))
                                   (combine a b))).
  { clear. induction (combine a b) as [|p l IHl]; simpl; [lra|].
    pose proof (Rle_0_sqr (fst p - snd p)) as Hp. unfold Rsqr in Hp. lra. }
  pose proof (Rle_0_sqr (x - y)) as Hxy. unfold Rsqr in Hxy.
  assert (E0 : (x - y) * (x - y) = 0) by lra.
  assert (Ex : x = y) by nra.
  subst y. f_equal. apply IH; [lia | lra].
Qed.

Lemma l2_dist_zero (a b : vector) :
  length a = length b -> l2_dist a b = 0 -> a = b.
Proof.
  intros Hlen H. apply sum_sq_diff_zero; [exact Hlen|].
  unfold l2_dist in H. apply sqrt_eq_0; [|exact H].
  clear. induction (combine a b) as [|p l IHl]; simpl; [lra|].
  pose proof (Rle_0_sqr (fst p - snd p)) as Hp. unfold Rsqr in Hp. lra.
Qed.

Lemma map_seq_const (f : nat -> R) (c : R) (n : nat) :
  (forall i, (i < n)%nat -> f i = c) -> map f (seq 0 n) = repeat c n.
Proof.
  intros H. rewrite <- (map_id (repeat c n)).
  assert (G : forall k m, (k + m <= n)%nat -> map f (seq k m) = repeat c m).
  { intros k m. revert k. induction m as [|m IH]; intros k Hk; simpl;
      [reflexivity|].
    rewrite H by lia. f_equal. apply IH. lia. }
  rewrite map_id. apply G. lia.
Qed.

(** X5: a batch compared with itself scores 1 at every row, rows without
    elements included. *)
Theorem embedding_dist_self (embed : matrix) :
  embedding_dist embed embed = Ok (repeat 1 (length embed)).
Proof.
  rewrite embedding_dist_paired.
  - f_equal. apply map_seq_const. intros i Hi.
    unfold row_similarity. rewrite l2_dist_self. lra.
  - intros i Hi. exists (nth i embed []), (nth i embed []).
    repeat split; auto using nth_error_nth'.
Qed.

Lemma embedding_dist_self_witness :
  embedding_dist [[3; 4]; [0; 2]; []] [[3; 4]; [0; 2]; []] = Ok (repeat 1 3).
Proof.
  apply (@embedding_dist_self [[3; 4]; [0; 2]; []]).
Defined.

Lemma pair_similarity_sym (embed1 embed2 : matrix) (i : nat) :
  (i < length embed1)%nat -> (i < length embed2)%nat ->
  pair_similarity embed1 embed2 i = pair_similarity embed2 embed1 i.
Proof.
  intros H1 H2. unfold pair_similarity, getitem.
  rewrite (nth_error_nth' embed1 [] H1), (nth_error_nth' embed2 [] H2). simpl.
  set (a := nth i embed1 []). set (b := nth i embed2 []).
  unfold cdist. simpl. rewrite (Nat.eqb_sym (length b) (length a)).
  destruct (Nat.eqb (length a) (length b)); simpl; [|reflexivity].
  now rewrite (l2_dist_sym a b).
Qed.

(** X6: on two batches with the same number of rows [embedding_dist] is
    symmetric: swapping the batches gives the same scores, or the same
    exception. *)
Theorem embedding_dist_symmetric (embed1 embed2 : matrix) :
  length embed1 = length embed2 ->
  embedding_dist embed1 embed2 = embedding_dist embed2 embed1.
Proof.
  intros Hlen. unfold embedding_dist. rewrite <- Hlen.
  apply embedding_dist_loop_ext. intros i Hi. apply in_seq in Hi.
  apply pair_similarity_sym; lia.
Qed.

Lemma embedding_dist_symmetric_witness :
  embedding_dist [[3; 0]; [0; 4]] [[0; 0]; [0; 1]]
  = embedding_dist [[0; 0]; [0; 1]] [[3; 0]; [0; 4]].
Proof.
  apply (@embedding_dist_symmetric [[3; 0]; [0; 4]] [[0; 0]; [0; 1]]).
  reflexivity.
Defined.

(** X7: whatever the batches, normalised or not, no score [embedding_dist]
    returns exceeds 1: a score is 1 minus half a distance, and a distance is
    not negative. *)
Theorem embedding_dist_at_most_one (embed1 embed2 : matrix) (scores : list R) :
  embedding_dist embed1 embed2 = Ok scores ->
  Forall (fun s => s <= 1) scores.
Proof.
  intros H. apply embedding_dist_loop_inv in H. simpl in H. subst scores.
  apply Forall_forall. intros s Hs. apply in_map_iff in Hs.
  destruct Hs as (i & <- & _). unfold row_similarity.
  pose proof (l2_dist_nonneg (nth i embed1 []) (nth i embed2 [])). lra.
Qed.

Lemma embedding_dist_at_most_one_witness :
  Forall (fun s => s <= 1)
    (map (row_similarity [[3; 0]; [0; 4]] [[0; 0]; [0; 4]]) [0; 1]%nat).
Proof.
  apply (@embedding_dist_at_most_one [[3; 0]; [0; 4]] [[0; 0]; [0; 4]]).
  apply (@embedding_dist_rows [[3; 0]; [0; 4]] [[0; 0]; [0; 4]] 2);
    [simpl; lia | repeat constructor | repeat constructor].
Defined.

End Similarity.

(** ** [embedding_dist]: batches put together *)

Section Batching.
Local Open Scope outcome_scope.

Lemma pair_similarity_app_left (a b c d : matrix) (i : nat) :
  (i < length a)%nat -> length a = length c ->
  pair_similarity (a ++ b) (c ++ d) i = pair_similarity a c i.
Proof.
  intros Hi Hlen. unfold pair_similarity, getitem.
  rewrite !nth_error_app1 by lia. reflexivity.
Qed.

Lemma pair_similarity_app_right (a b c d : matrix) (i : nat) :
  length a = length c ->
  pair_similarity (a ++ b) (c ++ d) (length a + i) = pair_similarity b d i.
Proof.
  intros Hlen. unfold pair_similarity, getitem.
  rewrite !nth_error_app2 by lia.
  replace (length a + i - length a)%nat with i by lia.
  replace (length a + i - length c)%nat with i by lia.
  reflexivity.
Qed.

(** X8: the scores of two batches put end to end are the scores of the first
    pair of batches followed by the scores of the second: a score does not
    depend on the batch its rows arrive in.  A failure in the first pair, or
    else in the second, is the failure of the whole. *)
Theorem embedding_dist_app (a b c d : matrix) :
  length a = length c ->
  embedding_dist (a ++ b) (c ++ d)
  = (s1 <- embedding_dist a c ;;
     s2 <- embedding_dist b d ;;
     Ok (s1 ++ s2)).
Proof.
  intros Hlen. unfold embedding_dist.
  rewrite length_app, seq_app, embedding_dist_loop_app. simpl.
  rewrite (@embedding_dist_loop_ext (a ++ b) (c ++ d) a c)
    by (intros i Hi; apply in_seq in Hi; apply pair_similarity_app_left; lia).
  destruct (embedding_dist_loop a c (seq 0 (length a)) []) as [s1|e]; simpl;
    [|reflexivity].
  rewrite (seq_add_map (length a) (length b)).
  rewrite (@embedding_dist_loop_map_ext (a ++ b) (c ++ d) b d (Nat.add (length a)))
    by (intros i _; now apply pair_similarity_app_right).
  apply embedding_dist_loop_acc.
Qed.

Lemma embedding_dist_app_witness :
  embedding_dist ([[3; 0]] ++ [[0; 4]]) ([[0; 0]] ++ [[0; 1]])
  = (s1 <- embedding_dist [[3; 0]] [[0; 0]] ;;
     s2 <- embedding_dist [[0; 4]] [[0; 1]] ;;
     Ok (s1 ++ s2)).
Proof.
  apply (@embedding_dist_app [[3; 0]] [[0; 4]] [[0; 0]] [[0; 1]]). reflexivity.
Defined.

End Batching.

(** ** [embedding_dist] on normalised rows: the cosine *)

Lemma sum_sq_diff_dot (a b : vector) :
  length a = length b ->
  sum_list (map (fun p => (fst p - snd p) * (fst p - snd p)) (combine a b))
  = sum_list (map (fun x => x * x) a) + sum_list (map (fun x => x * x) b)
    - 2 * dot a b.
Proof.
  unfold dot. revert b.
  induction a as [|x a IH]; intros [|y b] Hlen; simpl in *; try discriminate.
  - lra.
  - rewrite IH by lia. lra.
Qed.

Lemma sum_sq_sum_dot (a b : vector) :
  length a = length b ->
  0 <= sum_list (map (fun x => x * x) a) + sum_list (map (fun x => x * x) b)
       + 2 * dot a b.
Proof.
  unfold dot. revert b.
  induction a as [|x a IH]; intros [|y b] Hlen; simpl in *; try discriminate.
  - lra.
  - specialize (IH b ltac:(lia)).
    pose proof (Rle_0_sqr (x + y)) as Hxy. unfold Rsqr in Hxy. lra.
Qed.

Lemma unit_norm_sum (v : vector) :
  unit_norm v -> sum_list (map (fun x => x * x) v) = 1.
Proof.
  unfold unit_norm. intros H. rewrite <- l2_norm_sq, H. lra.
Qed.

(** X9: for two embedding batches of unit-norm rows, the score of a pair of
    rows is a function of their cosine (their inner product [c], which lies
    in [[-1, 1]]): it is [1 - sqrt (2 - 2 c) / 2]. *)
Theorem embedding_dist_cosine (embed1 embed2 : matrix) (n k : nat) :
  embedding_batch n k embed1 ->
  embedding_batch n k embed2 ->
  Forall unit_norm embed1 ->
  Forall unit_norm embed2 ->
  exists scores,
    embedding_dist embed1 embed2 = Ok scores /\
    forall i, (i < n)%nat ->
      let c := dot (nth i embed1 []) (nth i embed2 []) in
      -1 <= c <= 1 /\ nth i scores 0 = 1 - sqrt (2 - 2 * c) / 2.
Proof.
  intros (L1 & Hk & W1) (L2 & _ & W2) U1 U2.
  eexists. split; [apply embedding_dist_rows with (k := k); auto; lia|].
  intros i Hi c.
  assert (Hi1 : (i < length embed1)%nat) by lia.
  assert (Hi2 : (i < length embed2)%nat) by lia.
  rewrite Forall_forall in W1, W2, U1, U2.
  pose proof (W1 _ (nth_In embed1 [] Hi1)) as Wa.
  pose proof (W2 _ (nth_In embed2 [] Hi2)) as Wb.
  pose proof (unit_norm_sum (U1 _ (nth_In embed1 [] Hi1))) as Na.
  pose proof (unit_norm_sum (U2 _ (nth_In embed2 [] Hi2))) as Nb.
  unfold width in Wa, Wb.
  assert (Hab : length (nth i embed1 []) = length (nth i embed2 []))
    by congruence.
  pose proof (sum_sq_diff_dot _ _ Hab) as Hd.
  pose proof (sum_sq_sum_dot _ _ Hab) as Hs.
  pose proof (sum_sq_diff_le (nth i embed1 []) (nth i embed2 [])) as Hle.
  fold c in Hd, Hs. rewrite Na, Nb in Hd, Hs, Hle.
  assert (Hnn : 0 <= sum_list (map (fun p => (fst p - snd p) * (fst p - snd p))
                                 (combine (nth i embed1 []) (nth i embed2 [])))).
  { clear. induction (combine _ _) as [|p l IHl]; simpl; [lra|].
    pose proof (Rle_0_sqr (fst p - snd p)) as Hp. unfold Rsqr in Hp. lra. }
  split; [lra|].
  rewrite nth_indep with (d' := row_similarity embed1 embed2 O)
    by (rewrite length_map, length_seq; lia).
  rewrite map_nth, seq_nth by lia. simpl.
  unfold row_similarity, l2_dist. rewrite Hd.
  replace (1 + 1 - 2 * c) with (2 - 2 * c) by lra. reflexivity.
Qed.

Lemma embedding_dist_cosine_witness :
  exists scores,
    embedding_dist [[1; 0]; [0; 1]] [[0; 1]; [0; 1]] = Ok scores /\
    forall i, (i < 2)%nat ->
      let c := dot (nth i [[1; 0]; [0; 1]] []) (nth i [[0; 1]; [0; 1]] []) in
      -1 <= c <= 1 /\ nth i scores 0 = 1 - sqrt (2 - 2 * c) / 2.
Proof.
  apply (@embedding_dist_cosine [[1; 0]; [0; 1]] [[0; 1]; [0; 1]] 2 2).
  - split; [reflexivity | split; [lia | repeat constructor]].
  - split; [reflexivity | split; [lia | repeat constructor]].
  - repeat constructor; [apply unit_norm_e1 | apply unit_norm_e2].
  - repeat constructor; apply unit_norm_e2.
Defined.

(** ** [generate_embeddings] and a batch of [evaluate] *)

Section BatchFacts.
Variable D : domain.
Variable X : externals D.

(** X12: when the network returns a tuple of fewer than two components,
    [generate_embeddings] raises [IndexError] after the forward pass: the
    network has been run on the normalised image and what the pass did to the
    network and to the environment stays. *)
Theorem generate_embeddings_short_tuple (net : handle) (tgt : Target D)
    (input : tensor) (w : world D) (out : list matrix) (n' : NetState D)
    (e' : env D) :
  forward X (nets w net) (normalize_pixels input) tgt true (grad_enabled w) (w_env w)
  = (Ok out, (n', e')) ->
  (length out < 2)%nat ->
  fst (generate_embeddings X net tgt input w) = Raise IndexError /\
  nets (snd (generate_embeddings X net tgt input w)) net = n' /\
  w_env (snd (generate_embeddings X net tgt input w)) = e' /\
  trace (snd (generate_embeddings X net tgt input w))
  = trace w ++ [(Forward net (normalize_pixels input) tgt true (grad_enabled w), None);
                (LibraryOp, Some IndexError)].
Proof.
  intros Hf Hlen.
  unfold generate_embeddings, bind, net_call, call_net, log_call. rewrite Hf.
  simpl. unfold getitem.
  assert (E : nth_error out 1 = None) by (apply nth_error_None; lia).
  rewrite E. unfold lift, log_call. simpl.
  repeat split.
  - unfold update_net. now rewrite Nat.eqb_refl.
  - now rewrite <- app_assoc.
Qed.

(** X13: a batch whose genuine ['target'] is empty, or whose impostor
    ['target'] has fewer than two components, makes the body of the loop
    raise [IndexError] before the network is run: no forward pass is made and
    the environment and the networks are untouched. *)
Theorem batch_scores_short_target (net : handle) (dev : device)
    (gen imp : sample D) (w : world D) :
  target gen = [] \/ (length (target imp) < 2)%nat ->
  fst (batch_scores X net dev (gen, imp) w) = Raise IndexError /\
  trace (snd (batch_scores X net dev (gen, imp) w))
  = trace w ++ [(LibraryOp, Some IndexError)] /\
  w_env (snd (batch_scores X net dev (gen, imp) w)) = w_env w /\
  nets (snd (batch_scores X net dev (gen, imp) w)) = nets w.
Proof.
  intros H. unfold batch_scores, bind, getitem.
  destruct (target gen) as [|gt gts] eqn:Eg; simpl.
  - unfold log_call. simpl. auto.
  - destruct H as [H|H]; [discriminate|].
    destruct (target imp) as [|it1 [|it2 its]]; simpl in H; try lia;
      simpl; unfold log_call; simpl; auto.
Qed.

Lemma generate_embeddings_Ok_grad (net : handle) (tgt : Target D) (input : tensor)
    (w w' : world D) (embed : matrix) :
  generate_embeddings X net tgt input w = (Ok embed, w') ->
  trace w' = trace w
             ++ [(Forward net (normalize_pixels input) tgt true (grad_enabled w), None)] /\
  grad_enabled w' = grad_enabled w.
Proof.
  unfold generate_embeddings. intros H.
  apply bind_Ok in H. destruct H as (out & w1 & H1 & H).
  apply bind_Ok in H. destruct H as (emb & w2 & H2 & H).
  apply lift_Ok in H2. destruct H2 as [_ ->].
  apply ret_Ok in H. destruct H as [_ ->].
  unfold net_call, call_net in H1.
  destruct (forward X (nets w net) (normalize_pixels input) tgt true
              (grad_enabled w) (w_env w)) as [r [n' e']].
  injection H1 as -> <-. simpl. auto.
Qed.

(** X14: a batch that is processed to the end has made exactly four forward
    passes, in this order and all in inference mode: the masked and the
    unmasked genuine images with the first component of the genuine
    ['target'], then the masked and the unmasked impostor images with the
    second component of the impostor ['target'], every image normalised. *)
Theorem batch_scores_forward_passes (net : handle) (dev : device)
    (gen imp : sample D) (w : world D) :
  returns (batch_scores X net dev (gen, imp)) w ->
  exists gen_target imp_target,
    nth_error (target gen) 0 = Some gen_target /\
    nth_error (target imp) 1 = Some imp_target /\
    trace (snd (batch_scores X net dev (gen, imp) w))
    = trace w
      ++ [(Forward net (normalize_pixels (masked gen)) gen_target true
             (grad_enabled w), None);
          (Forward net (normalize_pixels (unmasked gen)) gen_target true
             (grad_enabled w), None);
          (Forward net (normalize_pixels (masked imp)) imp_target true
             (grad_enabled w), None);
          (Forward net (normalize_pixels (unmasked imp)) imp_target true
             (grad_enabled w), None)].
Proof.
  intros (s & Hs).
  destruct (batch_scores X net dev (gen, imp) w) as [r w'] eqn:H.
  simpl in Hs. subst r. simpl. unfold batch_scores in H.
  apply bind_Ok in H. destruct H as (gt & w1 & H1 & H).
  apply lift_Ok in H1. destruct H1 as [G1 ->].
  apply bind_Ok in H. destruct H as (it & w2 & H2 & H).
  apply lift_Ok in H2. destruct H2 as [G2 ->].
  apply bind_Ok in H. destruct H as (e1 & w3 & H3 & H).
  apply bind_Ok in H. destruct H as (e2 & w4 & H4 & H).
  apply bind_Ok in H. destruct H as (e3 & w5 & H5 & H).
  apply bind_Ok in H. destruct H as (e4 & w6 & H6 & H).
  apply bind_Ok in H. destruct H as (gd & w7 & H7 & H).
  apply lift_Ok in H7. destruct H7 as [_ ->].
  apply bind_Ok in H. destruct H as (id & w8 & H8 & H).
  apply lift_Ok in H8. destruct H8 as [_ ->].
  apply ret_Ok in H. destruct H as [_ ->].
  apply generate_embeddings_Ok_grad in H3, H4, H5, H6.
  destruct H3 as (T3 & G3), H4 as (T4 & G4), H5 as (T5 & G5), H6 as (T6 & _).
  assert (N1 : nth_error (target gen) 0 = Some gt).
  { unfold getitem in G1.
    destruct (nth_error (target gen) 0); [now injection G1 as -> | discriminate]. }
  assert (N2 : nth_error (target imp) 1 = Some it).
  { unfold getitem in G2.
    destruct (nth_error (target imp) 1); [now injection G2 as -> | discriminate]. }
  exists gt, it. split; [exact N1|]. split; [exact N2|].
  rewrite T6, T5, T4, T3, G5, G4, G3, <- !app_assoc. reflexivity.
Qed.

End BatchFacts.

Lemma generate_embeddings_short_tuple_witness :
  let run := generate_embeddings ToyShort.ext 0%nat 7%nat
               (mkTensor [1; 2]%nat [0; 255]) (Toy.init 1) in
  fst run = Raise IndexError /\
  nets (snd run) 0%nat = 1%nat /\
  w_env (snd run) = w_env (Toy.init 1) /\
  trace (snd run)
  = trace (Toy.init 1)
    ++ [(@Forward Toy.dom 0%nat (normalize_pixels (mkTensor [1; 2]%nat [0; 255]))
           7%nat true true, None);
        (LibraryOp, Some IndexError)].
Proof.
  apply (@generate_embeddings_short_tuple Toy.dom ToyShort.ext 0%nat 7%nat
           (mkTensor [1; 2]%nat [0; 255]) (Toy.init 1)
           [[data (normalize_pixels (mkTensor [1; 2]%nat [0; 255]))]]
           1%nat (w_env (Toy.init 1))).
  - reflexivity.
  - simpl. lia.
Defined.

Lemma batch_scores_short_target_witness :
  let b := (@mkSample Toy.dom [7]%nat (mkTensor [1]%nat [0]) (mkTensor [1]%nat [0]),
            @mkSample Toy.dom [9]%nat (mkTensor [1]%nat [0]) (mkTensor [1]%nat [0])) in
  fst (batch_scores Toy.ext 0%nat Cpu b (Toy.init 1)) = Raise IndexError /\
  trace (snd (batch_scores Toy.ext 0%nat Cpu b (Toy.init 1)))
  = trace (Toy.init 1) ++ [(LibraryOp, Some IndexError)] /\
  w_env (snd (batch_scores Toy.ext 0%nat Cpu b (Toy.init 1))) = w_env (Toy.init 1) /\
  nets (snd (batch_scores Toy.ext 0%nat Cpu b (Toy.init 1))) = nets (Toy.init 1).
Proof.
  apply (@batch_scores_short_target Toy.dom Toy.ext 0%nat Cpu
           (@mkSample Toy.dom [7]%nat (mkTensor [1]%nat [0]) (mkTensor [1]%nat [0]))
           (@mkSample Toy.dom [9]%nat (mkTensor [1]%nat [0]) (mkTensor [1]%nat [0]))
           (Toy.init 1)).
  right. simpl. lia.
Defined.

Lemma batch_scores_forward_passes_witness :
  exists gen_target imp_target,
    nth_error (target (fst Toy.a_batch)) 0 = Some gen_target /\
    nth_error (target (snd Toy.a_batch)) 1 = Some imp_target /\
    trace (snd (batch_scores Toy.ext 0%nat Cpu
                  (fst Toy.a_batch, snd Toy.a_batch) (Toy.init 1)))
    = trace (Toy.init 1)
      ++ [(@Forward Toy.dom 0%nat (normalize_pixels (masked (fst Toy.a_batch))) gen_target
             true (grad_enabled (Toy.init 1)), None);
          (Forward 0%nat (normalize_pixels (unmasked (fst Toy.a_batch))) gen_target
             true (grad_enabled (Toy.init 1)), None);
          (Forward 0%nat (normalize_pixels (masked (snd Toy.a_batch))) imp_target
             true (grad_enabled (Toy.init 1)), None);
          (Forward 0%nat (normalize_pixels (unmasked (snd Toy.a_batch))) imp_target
             true (grad_enabled (Toy.init 1)), None)].
Proof.
  apply (@batch_scores_forward_passes Toy.dom Toy.ext 0%nat Cpu
           (fst Toy.a_batch) (snd Toy.a_batch) (Toy.init 1)).
  eexists. lazy. reflexivity.
Defined.

(** ** [evaluate] *)

Section EvaluateFacts.
Variable D : domain.
Variable X : externals D.

Lemma batch_scores_unit_interval (net : handle) (dev : device) (b : batch D)
    (w w' : world D) (g i : list R) :
  batch_scores X net dev b w = (Ok (g, i), w') ->
  Forall unit_interval g /\ Forall unit_interval i.
Proof.
  unfold batch_scores. destruct b as [gen imp]. intros H.
  apply bind_Ok in H. destruct H as (gt & w1 & H1 & H).
  apply bind_Ok in H. destruct H as (it & w2 & H2 & H).
  apply bind_Ok in H. destruct H as (e1 & w3 & H3 & H).
  apply bind_Ok in H. destruct H as (e2 & w4 & H4 & H).
  apply bind_Ok in H. destruct H as (e3 & w5 & H5 & H).
  apply bind_Ok in H. destruct H as (e4 & w6 & H6 & H).
  apply bind_Ok in H. destruct H as (gd & w7 & H7 & H).
  apply lift_Ok in H7. destruct H7 as [G7 _].
  apply bind_Ok in H. destruct H as (id & w8 & H8 & H).
  apply lift_Ok in H8. destruct H8 as [G8 _].
  apply ret_Ok in H. destruct H as [E _]. injection E as -> ->.
  split; [exact (normalized_scores_range _ _ G7) | exact (normalized_scores_range _ _ G8)].
Qed.

Lemma evaluate_loop_unit_interval (net : handle) (loader : Loader D)
    (dev : device) (range : list nat) :
  forall gscores iscores w w' g i,
    Forall unit_interval gscores -> Forall unit_interval iscores ->
    evaluate_loop X net loader dev range gscores iscores w = (Ok (g, i), w') ->
    Forall unit_interval g /\ Forall unit_interval i.
Proof.
  induction range as [|j range IH]; intros gscores iscores w w' g i Hg Hi H;
    simpl in H.
  - apply ret_Ok in H. destruct H as [E _]. injection E as -> ->. auto.
  - apply bind_Ok in H. destruct H as (b & w1 & H1 & H).
    apply bind_Ok in H. destruct H as ([g_dist i_dist] & w2 & H2 & H).
    apply batch_scores_unit_interval in H2. destruct H2 as [Hgd Hid].
    apply IH in H; auto; apply Forall_app; auto.
Qed.

Lemma evaluate_loop_no_metrics (net : handle) (loader : Loader D) (dev : device)
    (range : list nat) (gscores iscores : list R) :
  all_events metrics_scores_ok
    (evaluate_loop X net loader dev range gscores iscores).
Proof.
  unfold all_events.
  apply seq_evaluate_loop
    with (P := fun A (_ : outcome A) evs => Forall (@metrics_scores_ok D) evs)
         (ok := fun c => metrics_scores_ok (c, @None exn));
    try exact I; auto.
  - intros A B a r evs1 evs2 H1 H2. apply Forall_app. auto.
  - intros i _. exact I.
  - intros img tgt g. exact I.
Qed.

(** X15: in every run of [evaluate], whatever embeddings the network
    returns, the two score lists handed to [evaluate_metrics] hold only
    values of [[-1, 1]]:
    every score is the similarity of two rows that went through [normalize],
    rows of norm at most 1, which are at distance at most 2. *)
Theorem evaluate_scores_bounded (dir : string) (net : handle)
    (loader : Loader D) (dev : device) (w : world D) :
  exists evs,
    trace (snd (evaluate X dir net loader dev w)) = trace w ++ evs /\
    Forall metrics_scores_ok evs.
Proof.
  unfold evaluate, evaluate_scores, bind, with_no_grad.
  destruct (evaluate_loop_no_metrics net loader dev
              (seq 0 (num_batches X loader)) [] [] (set_grad false w))
    as (evs & T & F).
  destruct (evaluate_loop X net loader dev (seq 0 (num_batches X loader)) [] []
              (set_grad false w)) as [[[gscores iscores]|e] w1] eqn:E;
    simpl in *.
  - apply evaluate_loop_unit_interval in E; [|constructor|constructor].
    unfold metrics_evaluate_metrics, call_env, log_call. simpl.
    destruct (evaluate_metrics X dir gscores iscores "A" true (w_env w1))
      as [r e']. simpl.
    exists (evs ++ [(EvaluateMetrics dir gscores iscores "A" true, status r)]).
    rewrite T, app_assoc. split; [reflexivity|].
    apply Forall_app. split; [exact F|].
    assert (W : forall l, Forall unit_interval l ->
                          Forall (fun s => -1 <= s <= 1) l).
    { intros l. apply Forall_impl. unfold unit_interval. intros s Hs. lra. }
    repeat constructor; apply W, E.
  - eauto.
Qed.

(** X16: [evaluate] leaves the gradient mode as it found it, whether it
    returns or raises: the [with torch.no_grad()] block switches it off and
    restores it on the way out. *)
Theorem evaluate_restores_grad_mode (dir : string) (net : handle)
    (loader : Loader D) (dev : device) (w : world D) :
  grad_enabled (snd (evaluate X dir net loader dev w)) = grad_enabled w.
Proof.
  unfold evaluate, evaluate_scores, bind, with_no_grad.
  destruct (evaluate_loop X net loader dev (seq 0 (num_batches X loader)) [] []
              (set_grad false w)) as [[[gscores iscores]|e] w1]; simpl;
    [|reflexivity].
  unfold metrics_evaluate_metrics, call_env.
  destruct (evaluate_metrics X dir gscores iscores "A" true _) as [r e'].
  reflexivity.
Qed.

(** X17: on a loader without batches [evaluate] makes no forward pass: it is
    the call of [evaluate_metrics] on two empty score lists. *)
Theorem evaluate_empty_loader (dir : string) (net : handle)
    (loader : Loader D) (dev : device) (w : world D) :
  num_batches X loader = O ->
  evaluate X dir net loader dev w
  = metrics_evaluate_metrics X dir [] [] "A" true w.
Proof.
  intros H. unfold evaluate, evaluate_scores, bind, with_no_grad. rewrite H.
  simpl. destruct w. reflexivity.
Qed.

(** X18: the calls [evaluate] makes are the batches of its loader, with
    indices below the number of its batches, forward passes on its network in
    inference mode, failures of operations of its own, and [evaluate_metrics]
    on its directory with [clf_name = 'A'] and [print_results = True]; it
    never builds a network, loads a checkpoint, logs or writes a file. *)
Theorem evaluate_call_sites (dir : string) (net : handle) (loader : Loader D)
    (dev : device) :
  all_events (fun ev => evaluate_call X dir net loader (fst ev))
    (evaluate X dir net loader dev).
Proof.
  unfold all_events.
  apply seq_evaluate
    with (P := fun A (_ : outcome A) evs =>
                 Forall (fun ev : event D => evaluate_call X dir net loader (fst ev)) evs)
         (ok := evaluate_call X dir net loader); auto.
  intros A B a r evs1 evs2 H1 H2. apply Forall_app. auto.
Qed.

End EvaluateFacts.

Lemma evaluate_empty_loader_witness :
  evaluate Toy.ext "result/base_model" 0%nat 0%nat Cpu (Toy.init 1)
  = metrics_evaluate_metrics Toy.ext "result/base_model" [] [] "A" true (Toy.init 1).
Proof.
  apply (@evaluate_empty_loader Toy.dom Toy.ext "result/base_model" 0%nat 0%nat
           Cpu (Toy.init 1)).
  reflexivity.
Defined.

(** ** The main procedure *)

Section MainFacts.
Variable D : domain.
Variable X : externals D.

(** X19: the main procedure seeds the random number generators before it
    does anything else, so a run does not depend on the state the generators
    were in: from two worlds that differ only there, the outcome, the calls
    and the final world are the same. *)
Theorem main_rng_independent (args : arguments) (w1 w2 : world D) :
  same_up_to_rng w1 w2 -> main X args w1 = main X args w2.
Proof.
  intros (Hos & Hg & Hn & Hh & Ht).
  unfold main. unfold bind at 1. unfold bind at 2.
  assert (E : torch_manual_seed X 230 w1 = torch_manual_seed X 230 w2).
  { unfold torch_manual_seed, call_env, log_call. simpl.
    now rewrite Hos, Hg, Hn, Hh, Ht. }
  now rewrite E.
Qed.

Lemma main_call_constants_ok (args : arguments) (ev : event D) :
  main_call X args (fst ev) -> constants_ok args ev.
Proof.
  unfold constants_ok. intros H.
  inversion H as [| | | | | | | | | | |net loader c Hc|];
    try exact I; try reflexivity; auto.
  inversion Hc; try exact I; auto.
Qed.

(** X20: the constants of the main procedure: in every run both seeds are
    230, the loaders are created on [data_dir] with batch size 64 and 2
    workers, the network is built for 601 identities, every forward pass is
    in inference mode, and [evaluate_metrics] receives [model_dir], the
    classifier name ['A'] and [print_results = True]. *)
Theorem main_constants (args : arguments) (w : world D) :
  exists evs,
    trace (snd (main X args w)) = trace w ++ evs /\
    Forall (constants_ok args) evs.
Proof.
  destruct (main_calls X args w) as (evs & T & Hcalls).
  exists evs. split; [exact T|].
  revert Hcalls. apply Forall_impl. intros ev. apply main_call_constants_ok.
Qed.

Lemma call_env_Ok_handle {A} (c : call D) (f : env D -> outcome A * env D)
    (w w' : world D) (a : A) :
  call_env c f w = (Ok a, w') ->
  trace w' = trace w ++ [(c, None)] /\ next_handle w' = next_handle w.
Proof.
  unfold call_env. destruct (f (w_env w)) as [r e'].
  intros H. injection H as -> <-. auto.
Qed.

Lemma model_FocusFace_Ok_handle (identities : Z) (w w' : world D) (h : handle) :
  model_FocusFace X identities w = (Ok h, w') ->
  trace w' = trace w ++ [(FocusFace identities, None)] /\ h = next_handle w.
Proof.
  unfold model_FocusFace.
  destruct (new_FocusFace X identities (w_env w)) as [[n|e] e'];
    intros H; [|discriminate].
  injection H as <- <-. auto.
Qed.

Lemma evaluate_call_on_net (dir : string) (net : handle) (loader : Loader D)
    (ev : event D) :
  evaluate_call X dir net loader (fst ev) ->
  on_net net ev /\ fst ev <> CudaManualSeed 230.
Proof.
  unfold on_net. intros H. inversion H; split; try exact I; try reflexivity;
    congruence.
Qed.

(** X21: in a run of the main procedure that returns, the checkpoint is
    loaded into the network the run built (the object allocated by
    [FocusFace]) and every forward pass is made on that same network; the
    generator of the GPU is seeded exactly when CUDA is available. *)
Theorem main_one_network (args : arguments) (w : world D) :
  returns (main X args) w ->
  exists evs,
    trace (snd (main X args w)) = trace w ++ evs /\
    Forall (on_net (next_handle w)) evs /\
    In (LoadCheckpoint (pretrain_path args) (next_handle w), None) evs /\
    (In (CudaManualSeed 230, None) evs <->
     cuda_is_available X (os (w_env w)) = true).
Proof.
  intros ([] & Hret).
  destruct (main X args w) as [r w'] eqn:H. simpl in Hret. subst r. simpl.
  unfold main in H.
  apply bind_Ok in H. destruct H as (u1 & w1 & H1 & H).
  apply bind_Ok in H. destruct H as (cuda & w2 & H2 & H).
  apply bind_Ok in H. destruct H as (dev & w3 & H3 & H).
  apply bind_Ok in H. destruct H as (u4 & w4 & H4 & H).
  apply bind_Ok in H. destruct H as (u5 & w5 & H5 & H).
  apply bind_Ok in H. destruct H as ([l test_loader] & w6 & H6 & H).
  apply bind_Ok in H. destruct H as (u7 & w7 & H7 & H).
  apply bind_Ok in H. destruct H as (net & w8 & H8 & H).
  apply bind_Ok in H. destruct H as (u9 & w9 & H9 & H).
  apply bind_Ok in H. destruct H as (u10 & w10 & H10 & H).
  apply bind_Ok in H. destruct H as (u11 & w11 & H11 & H).
  apply bind_Ok in H. destruct H as (metrics & w12 & H12 & H).
  assert (C : cuda = cuda_is_available X (os (w_env w))).
  { unfold torch_manual_seed, call_env in H1. injection H1 as _ <-.
    unfold torch_cuda_is_available, call_env in H2. simpl in H2.
    now injection H2 as <- _. }
  unfold torch_manual_seed, torch_cuda_is_available, utils_set_logger,
    logging_info_, dataloader_create_dataloader, utils_load_checkpoint,
    utils_save_dict_to_json in *.
  apply call_env_Ok_handle in H1, H2, H4, H5, H6, H7.
  apply call_env_Ok in H9, H11, H.
  apply call_net_Ok in H10. apply model_FocusFace_Ok_handle in H8.
  destruct H1 as (T1 & N1), H2 as (T2 & N2), H4 as (T4 & N4), H5 as (T5 & N5),
    H6 as (T6 & N6), H7 as (T7 & N7), H8 as (T8 & N8).
  assert (T3 : trace w3
               = trace w2 ++ (if cuda then [(CudaManualSeed 230, None)] else [])
               /\ next_handle w3 = next_handle w2).
  { destruct cuda.
    - apply bind_Ok in H3. destruct H3 as (u & w0 & H3 & Hr).
      apply ret_Ok in Hr. destruct Hr as [_ ->].
      unfold torch_cuda_manual_seed in H3. now apply call_env_Ok_handle in H3.
    - apply ret_Ok in H3. destruct H3 as [_ ->]. now rewrite app_nil_r. }
  destruct T3 as (T3 & N3).
  assert (Hnet : to_device net dev = next_handle w).
  { unfold to_device. congruence. }
  rewrite Hnet in *. clear Hnet N8 net.
  destruct (@seq_evaluate D X
              (fun A (_ : outcome A) evs =>
                 Forall (fun ev : event D =>
                           evaluate_call X (model_dir args) (next_handle w)
                             test_loader (fst ev)) evs)
              (evaluate_call X (model_dir args) (next_handle w) test_loader)
              ltac:(intros; constructor)
              ltac:(intros A B e evs0 H0; exact H0)
              ltac:(intros A B a r evs1 evs2 F1 F2; apply Forall_app; auto)
              ltac:(intros A c r Hc; repeat constructor; exact Hc)
              (model_dir args) (next_handle w) test_loader dev
              ltac:(intros c Hc; exact Hc) w11)
    as (evs & T12 & F12).
  rewrite H12 in T12. simpl in T12.
  assert (F : Forall (fun ev : event D =>
                        on_net (next_handle w) ev /\
                        fst ev <> CudaManualSeed 230) evs).
  { revert F12. apply Forall_impl. intros ev. apply evaluate_call_on_net. }
  eexists. split.
  { rewrite H, T12, H11, H10, H9, T8, T7, T6, T5, T4, T3, T2, T1.
    rewrite <- !app_assoc. reflexivity. }
  split; [|split].
  - assert (Hl : Forall (on_net (next_handle w)) evs).
    { revert F. apply Forall_impl. intros ev [Hev _]. exact Hev. }
    repeat (apply Forall_app; split);
      try (destruct cuda); repeat constructor; exact Hl.
  - rewrite !in_app_iff. simpl. auto 20.
  - rewrite <- C. rewrite !in_app_iff. simpl. split.
    + intros Hin. destruct cuda; [reflexivity|]. exfalso.
      rewrite Forall_forall in F.
      repeat match goal with
             | Hx : _ \/ _ |- _ => destruct Hx as [Hx|Hx]
             | Hx : (_, _) = (_, _) |- _ => discriminate Hx
             | Hx : False |- _ => destruct Hx
             | Hx : In _ [] |- _ => destruct Hx
             | Hx : In _ evs |- _ => destruct (F _ Hx) as [_ Hne]; now apply Hne
             end.
    + intros ->. right. right. left. left. reflexivity.
Qed.

End MainFacts.

Lemma toy_same_up_to_rng : same_up_to_rng (Toy.init 1) (Toy.init 2).
Proof. repeat split. Qed.

Lemma main_rng_independent_witness :
  main Toy.ext Toy.args (Toy.init 1) = main Toy.ext Toy.args (Toy.init 2).
Proof.
  apply (@main_rng_independent Toy.dom Toy.ext Toy.args (Toy.init 1) (Toy.init 2)
           toy_same_up_to_rng).
Defined.

Lemma toy_main_returns_init : returns (main Toy.ext Toy.args) (Toy.init 1).
Proof. exists tt. lazy. reflexivity. Qed.

Lemma main_one_network_witness :
  exists evs,
    trace (snd (main Toy.ext Toy.args (Toy.init 1))) = trace (Toy.init 1) ++ evs /\
    Forall (on_net (next_handle (Toy.init 1))) evs /\
    In (LoadCheckpoint (pretrain_path Toy.args) (next_handle (Toy.init 1)), None) evs /\
    (In (CudaManualSeed 230, None) evs <->
     cuda_is_available Toy.ext (os (w_env (Toy.init 1))) = true).
Proof.
  apply (@main_one_network Toy.dom Toy.ext Toy.args (Toy.init 1)
           toy_main_returns_init).
Defined.

(** ** The paths of the main procedure *)

Section Paths.
Local Open Scope string_scope.

Lemma prefix_app (a b : string) : prefix a (a ++ b) = true.
Proof.
  induction a as [|c a IH]; simpl; [now destruct b|].
  destruct (ascii_dec c c) as [_|Hc]; [exact IH | now destruct Hc].
Qed.

Lemma path_join_relative (a b : string) :
  starts_with_sep b = false -> prefix a (path_join a b) = true.
Proof.
  intros Hb. unfold path_join. rewrite Hb.
  destruct (String.eqb a "" || ends_with_sep a); apply prefix_app.
Qed.

Lemma starts_with_sep_app (p s : string) :
  starts_with_sep p = false -> starts_with_sep s = false ->
  starts_with_sep (p ++ s) = false.
Proof. destruct p as [|c p]; simpl; auto. Qed.

(** X22: the log file and the metrics file are always written under
    [model_dir] (their paths extend it), whatever [pretrained] is; the
    checkpoint is read under [model_dir] unless [pretrained] starts with a
    slash, in which case [model_dir] is dropped and the checkpoint is read
    from the absolute path [pretrained + ".pth.tar"]. *)
Theorem paths_under_model_dir (args : arguments) :
  prefix (model_dir args) (log_path args) = true /\
  prefix (model_dir args) (save_path args) = true /\
  (starts_with_sep (pretrained args) = false ->
   prefix (model_dir args) (pretrain_path args) = true) /\
  (starts_with_sep (pretrained args) = true ->
   pretrain_path args = pretrained args ++ ".pth.tar").
Proof.
  unfold log_path, save_path, pretrain_path. repeat split.
  - now apply path_join_relative.
  - now apply path_join_relative.
  - intros H. apply path_join_relative. now apply starts_with_sep_app.
  - intros H. unfold path_join.
    destruct (pretrained args) as [|c p]; [discriminate|].
    simpl in *. now rewrite H.
Qed.

End Paths.

(** ** The loop of [evaluate], batch after batch *)

Section LoopFacts.
Variable D : domain.
Variable X : externals D.

Lemma forward_passes_app (evs1 evs2 : list (event D)) :
  forward_passes (evs1 ++ evs2) = (forward_passes evs1 + forward_passes evs2)%nat.
Proof.
  induction evs1 as [|[c st] evs1 IH]; simpl; [reflexivity|].
  destruct c; simpl; now rewrite IH.
Qed.

Lemma batch_scores_Ok_passes (net : handle) (dev : device) (b : batch D)
    (w w' : world D) (s : list R * list R) :
  batch_scores X net dev b w = (Ok s, w') ->
  exists evs,
    trace w' = trace w ++ evs /\
    fetched evs = [] /\ forward_passes evs = 4%nat.
Proof.
  unfold batch_scores. destruct b as [gen imp]. intros H.
  apply bind_Ok in H. destruct H as (gt & w1 & H1 & H).
  apply lift_Ok in H1. destruct H1 as [_ ->].
  apply bind_Ok in H. destruct H as (it & w2 & H2 & H).
  apply lift_Ok in H2. destruct H2 as [_ ->].
  apply bind_Ok in H. destruct H as (e1 & w3 & H3 & H).
  apply bind_Ok in H. destruct H as (e2 & w4 & H4 & H).
  apply bind_Ok in H. destruct H as (e3 & w5 & H5 & H).
  apply bind_Ok in H. destruct H as (e4 & w6 & H6 & H).
  apply bind_Ok in H. destruct H as (gd & w7 & H7 & H).
  apply lift_Ok in H7. destruct H7 as [_ ->].
  apply bind_Ok in H. destruct H as (id & w8 & H8 & H).
  apply lift_Ok in H8. destruct H8 as [_ ->].
  apply ret_Ok in H. destruct H as [_ ->].
  apply generate_embeddings_Ok in H3, H4, H5, H6.
  destruct H3 as (g3 & T3), H4 as (g4 & T4), H5 as (g5 & T5), H6 as (g6 & T6).
  eexists. split.
  - rewrite T6, T5, T4, T3, <- !app_assoc. reflexivity.
  - split; reflexivity.
Qed.

Lemma evaluate_loop_Ok_passes (net : handle) (loader : Loader D) (dev : device)
    (range : list nat) :
  forall gscores iscores w w' s,
    evaluate_loop X net loader dev range gscores iscores w = (Ok s, w') ->
    exists evs,
      trace w' = trace w ++ evs /\
      fetched evs = map (pair loader) range /\
      forward_passes evs = (4 * length range)%nat.
Proof.
  induction range as [|i range IH]; intros gscores iscores w w' s H; simpl in H.
  - apply ret_Ok in H. destruct H as [_ ->].
    exists []. rewrite app_nil_r. repeat split.
  - apply bind_Ok in H. destruct H as (b & w1 & H1 & H).
    apply bind_Ok in H. destruct H as ([g_dist i_dist] & w2 & H2 & H).
    apply call_env_Ok in H1. apply batch_scores_Ok_passes in H2.
    destruct H2 as (evs2 & T2 & F2 & P2).
    apply IH in H. destruct H as (evs3 & T3 & F3 & P3).
    exists ((NextBatch loader i, None) :: evs2 ++ evs3). split; [|split].
    + rewrite T3, T2, H1, <- !app_assoc. reflexivity.
    + simpl. now rewrite fetched_app, F2, F3.
    + simpl. rewrite forward_passes_app, P2, P3. simpl. lia.
Qed.

(** X23: a run of [evaluate] that returns has fetched the batches of its
    loader at the indices 0, 1, ..., in this order and each once, and has
    made four forward passes per batch. *)
Theorem evaluate_fetches_in_order (dir : string) (net : handle)
    (loader : Loader D) (dev : device) (w : world D) :
  returns (evaluate X dir net loader dev) w ->
  exists evs,
    trace (snd (evaluate X dir net loader dev w)) = trace w ++ evs /\
    fetched evs = map (pair loader) (seq 0 (num_batches X loader)) /\
    forward_passes evs = (4 * num_batches X loader)%nat.
Proof.
  intros (metrics & Hret).
  destruct (evaluate X dir net loader dev w) as [r w'] eqn:H.
  simpl in Hret. subst r. simpl.
  unfold evaluate, evaluate_scores in H.
  apply bind_Ok in H. destruct H as ([gscores iscores] & w1 & H1 & H).
  apply with_no_grad_Ok in H1. destruct H1 as (w0 & H1 & T0).
  apply evaluate_loop_Ok_passes in H1. destruct H1 as (evs & T1 & F1 & P1).
  apply call_env_Ok in H.
  exists (evs ++ [(EvaluateMetrics dir gscores iscores "A" true, None)]).
  split; [|split].
  - rewrite H, T0, T1, <- app_assoc. reflexivity.
  - rewrite fetched_app, F1. simpl. now rewrite app_nil_r.
  - rewrite forward_passes_app, P1, length_seq. simpl. lia.
Qed.

Lemma evaluate_loop_not_metrics (net : handle) (loader : Loader D) (dev : device)
    (range : list nat) (gscores iscores : list R) :
  all_events not_metrics (evaluate_loop X net loader dev range gscores iscores).
Proof.
  unfold all_events.
  apply seq_evaluate_loop
    with (P := fun A (_ : outcome A) evs => Forall (@not_metrics D) evs)
         (ok := fun c => not_metrics (c, @None exn));
    try exact I; auto.
  - intros A B a r evs1 evs2 H1 H2. apply Forall_app. auto.
  - intros i _. exact I.
  - intros img tgt g. exact I.
Qed.

(** X24: [evaluate] computes no metrics on a part of the data: in every run
    either the loop raised and [evaluate_metrics] was not called at all, or
    every batch was processed and [evaluate_metrics] was called once, as the
    last call, and its outcome is the outcome of [evaluate]. *)
Theorem evaluate_metrics_all_or_nothing (dir : string) (net : handle)
    (loader : Loader D) (dev : device) (w : world D) :
  exists evs,
    trace (snd (evaluate X dir net loader dev w)) = trace w ++ evs /\
    ((exists e,
        fst (evaluate X dir net loader dev w) = Raise e /\
        Forall not_metrics evs) \/
     (exists loop gscores iscores,
        evs = loop ++ [(EvaluateMetrics dir gscores iscores "A" true,
                        status (fst (evaluate X dir net loader dev w)))] /\
        Forall not_metrics loop /\
        fetched loop = map (pair loader) (seq 0 (num_batches X loader)))).
Proof.
  unfold evaluate, evaluate_scores, bind, with_no_grad.
  destruct (evaluate_loop_not_metrics net loader dev
              (seq 0 (num_batches X loader)) [] [] (set_grad false w))
    as (evs & T & F).
  destruct (evaluate_loop X net loader dev (seq 0 (num_batches X loader)) [] []
              (set_grad false w)) as [[[gscores iscores]|e] w1] eqn:E;
    simpl in *.
  - apply evaluate_loop_Ok_passes in E. destruct E as (evs' & T' & F' & _).
    simpl in T'. rewrite T' in T. apply app_inv_head in T. subst evs'.
    unfold metrics_evaluate_metrics, call_env, log_call. simpl.
    destruct (evaluate_metrics X dir gscores iscores "A" true (w_env w1))
      as [r e']. simpl.
    eexists. split; [rewrite T', <- app_assoc; reflexivity|].
    right. exists evs, gscores, iscores. auto.
  - exists evs. split; [exact T|]. left. eauto.
Qed.

End LoopFacts.

Lemma toy_evaluate_returns :
  returns (evaluate Toy.ext "result/base_model" 0%nat 1%nat Cpu) (Toy.init 1).
Proof. eexists. lazy. reflexivity. Qed.

Lemma evaluate_fetches_in_order_witness :
  exists evs,
    trace (snd (evaluate Toy.ext "result/base_model" 0%nat 1%nat Cpu (Toy.init 1)))
    = trace (Toy.init 1) ++ evs /\
    fetched evs = map (pair 1%nat) (seq 0 (num_batches Toy.ext 1%nat)) /\
    forward_passes evs = (4 * num_batches Toy.ext 1%nat)%nat.
Proof.
  apply (@evaluate_fetches_in_order Toy.dom Toy.ext "result/base_model" 0%nat
           1%nat Cpu (Toy.init 1) toy_evaluate_returns).
Defined.
